(** * flojoy-python: the node decorator and the Windows RQ worker

    A shallow embedding of [flojoy.py] (control-panel state, [VectorXY],
    the parameter manifest reader, [fetch_inputs] and the [@flojoy]
    decorator) and of [flojoy/rq_worker.py] ([WindowsWorker.perform_job]
    and [WindowsSignalDeathPenalty]), followed by the properties proved
    about them. *)

From Stdlib Require Import ZArith String Ascii List Bool Lia.
From Stdlib Require Import Floats.SpecFloat.
From stdpp Require Import gmap strings list fin_maps pretty.

Set Warnings "-register-all".
Open Scope string_scope.
Open Scope list_scope.
Open Scope Z_scope.

(** ** Python values *)

(** The Python objects the two modules handle.  An array is kept as the
    call that built it: [np.array(object)] or [np.linspace(start, stop, num)];
    nothing in the repository computes with the contents. *)
Inductive pyval : Type :=
  | PNone
  | PBool (b : bool)
  | PInt (n : Z)
  | PFloat (f : spec_float)
  | PStr (s : string)
  | PList (items : list pyval)
  | PDict (items : list (string * pyval))
  | PNdarray (a : ndarray)
with ndarray : Type :=
  | np_array (object : pyval)
  | np_linspace (start stop : Z) (num : nat).

(** [str(type(value)).split("'")[1]]: the name between the quotes of
    [<class '...'>]. *)
Definition type_name (value : pyval) : string :=
  match value with
  | PNone => "NoneType"
  | PBool _ => "bool"
  | PInt _ => "int"
  | PFloat _ => "float"
  | PStr _ => "str"
  | PList _ => "list"
  | PDict _ => "dict"
  | PNdarray _ => "numpy.ndarray"
  end.

(** Exceptions: the class and the constructor arguments.  Every class here
    derives from [Exception], which is what the [except Exception] clauses
    of the two modules catch. *)
Inductive exn_class : Type :=
  | KeyError
  | ValueError
  | JobTimeoutException
  | OtherException (name : string).

Record exn : Type := Exn { exn_cls : exn_class; exn_args : list pyval }.

Inductive result (A : Type) : Type :=
  | Ok (a : A)
  | Raise (e : exn).
Arguments Ok {A} a.
Arguments Raise {A} e.

(** Sequencing: an exception ends the computation ([x ← r; k] below). *)
#[global] Instance result_bind : MBind result := fun A B k r =>
  match r with
  | Ok a => k a
  | Raise e => Raise e
  end.

(** [d[key]] on a dict: the value, or [KeyError(key)]. *)
Definition getitem {A} (d : gmap string A) (key : string) : result A :=
  match d !! key with
  | Some a => Ok a
  | None => Raise (Exn KeyError [PStr key])
  end.

(** ** Strings *)

(** [s.split(sep)] for a one-character separator. *)
Fixpoint split (sep : ascii) (s : list ascii) : list (list ascii) :=
  match s with
  | [] => [[]]
  | c :: rest =>
      if Ascii.eqb c sep then [] :: split sep rest
      else match split sep rest with
           | piece :: pieces => (c :: piece) :: pieces
           | [] => [[c]]
           end
  end.

(** ** flojoy.py *)

Module Flojoy.

(** *** CtrlPanel *)

(** An element of [fc.json]'s [elements] list, with the keys [get_state]
    reads: whether it has a ['source'] (an edge), its ['data'] object (of
    which only ['ctrls'] is read) and its ['id']. *)
Record node_data : Type := NodeData { ctrls : option (gmap string pyval) }.

Record element : Type := Element {
  el_id : option string;
  el_source : option string;
  el_data : option node_data
}.

Definition required {A} (key : string) (field : option A) : result A :=
  match field with
  | Some a => Ok a
  | None => Raise (Exn KeyError [PStr key])
  end.

(** [el['id'].split('-')[0]] *)
Definition label_of (id : string) : string :=
  string_of_list_ascii (hd [] (split "-" (list_ascii_of_string id))).

(** One turn of the loop of [get_state]. *)
Definition get_state_step (ctrls_dict : gmap string (gmap string pyval))
    (el : element) : result (gmap string (gmap string pyval)) :=
  match el_source el with
  | Some _ => Ok ctrls_dict
  | None =>
      data ← required "data" (el_data el);
      let ctrls := match ctrls data with Some c => c | None => ∅ end in
      id ← required "id" (el_id el);
      Ok (<[label_of id := ctrls]> ctrls_dict)
  end.

Fixpoint get_state_loop (elems : list element)
    (ctrls_dict : gmap string (gmap string pyval))
    : result (gmap string (gmap string pyval)) :=
  match elems with
  | [] => Ok ctrls_dict
  | el :: rest =>
      ctrls_dict' ← get_state_step ctrls_dict el;
      get_state_loop rest ctrls_dict'
  end.

(** [CtrlPanel.get_state], on the [elements] of the state document. *)
Definition get_state (elems : list element)
    : result (gmap string (gmap string pyval)) :=
  get_state_loop elems ∅.

(** *** VectorXY *)

(** A [VectorXY] is a [Box], that is a dict; the model keeps the dict. *)
Definition _ndarrayify (value : pyval) : result pyval :=
  let v_type := type_name value in
  if String.eqb v_type "int" || String.eqb v_type "float" then
    Ok (PNdarray (np_array (PList [value])))
  else if String.eqb v_type "list" then
    Ok (PNdarray (np_array value))
  else if String.eqb v_type "numpy.ndarray" then
    Ok value
  else
    Raise (Exn ValueError [value]).

Definition xy_key (key : string) : bool :=
  String.eqb key "x" || String.eqb key "y".

Definition __setitem__ (self : gmap string pyval) (key : string)
    (value : pyval) : result (gmap string pyval) :=
  if negb (xy_key key) then Raise (Exn KeyError [PStr key])
  else
    value' ← _ndarrayify value;
    Ok (<[key := value']> self).

Definition __getitem__ (self : gmap string pyval) (key : string)
    : result pyval :=
  if negb (xy_key key) then Raise (Exn KeyError [PStr key])
  else if String.eqb key "_ignore_default" then Ok PNone
  else getitem self key.

(** The constructor, on its keyword arguments: the object starts as an
    empty dict, and each assignment goes through [__setitem__]. *)
Definition __init__ (kwargs : gmap string pyval)
    : result (gmap string pyval) :=
  let self : gmap string pyval := ∅ in
  self ← match kwargs !! "x" with
         | Some x => (x' ← _ndarrayify x; __setitem__ self "x" x')
         | None => __setitem__ self "x" (PNdarray (np_array (PList [])))
         end;
  match kwargs !! "y" with
  | Some y => (y' ← _ndarrayify y; __setitem__ self "y" y')
  | None => __setitem__ self "y" (PNdarray (np_array (PList [])))
  end.

(** [v.clear()].  The class defines [__init__], [__getitem__] and
    [__setitem__] only; [clear] is the method it inherits from [Box], a
    [dict], and empties the object without going through [__setitem__]. *)
Definition clear (self : gmap string pyval) : gmap string pyval := ∅.

(** What a node receives and returns: a [VectorXY] or any other object. *)
Inductive pyobj : Type :=
  | VectorXY (box : gmap string pyval)
  | Plain (v : pyval).

(** *** js_to_json *)

(** A Python [str] is handled as the list of its characters. *)

(** [s.startswith(old)] *)
Fixpoint starts_with (old s : list ascii) : bool :=
  match old, s with
  | [], _ => true
  | _ :: _, [] => false
  | a :: old', c :: s' => Ascii.eqb a c && starts_with old' s'
  end.

(** [s.replace(old, new)] for a non-empty [old]: the occurrences are
    replaced from left to right and do not overlap; [skip] counts the
    characters of a replaced occurrence still to pass over. *)
Fixpoint replace_from (old new : list ascii) (skip : nat) (s : list ascii)
    : list ascii :=
  match s with
  | [] => []
  | c :: rest =>
      match skip with
      | S skip' => replace_from old new skip' rest
      | O =>
          if starts_with old (c :: rest)
          then new ++ replace_from old new (length old - 1) rest
          else c :: replace_from old new 0 rest
      end
  end.

Definition replace (old new s : list ascii) : list ascii :=
  replace_from old new 0 s.

(** [s.rstrip(chars)] *)
Fixpoint rstrip (chars s : list ascii) : list ascii :=
  match s with
  | [] => []
  | c :: rest =>
      match rstrip chars rest with
      | [] => if existsb (Ascii.eqb c) chars then [] else [c]
      | kept => c :: kept
      end
  end.

(** [c.isspace()] on ASCII: tab to carriage return, the four separators
    and the blank. *)
Definition is_space (c : ascii) : bool :=
  let n := N_of_ascii c in
  ((9 <=? n) && (n <=? 13) || (28 <=? n) && (n <=? 32))%N.

(** [s.split()]: the pieces between runs of whitespace, none empty. *)
Fixpoint split_whitespace (s : list ascii) : list (list ascii) :=
  match s with
  | [] => []
  | c :: rest =>
      if is_space c then split_whitespace rest
      else match rest with
           | [] => [[c]]
           | c' :: _ =>
               if is_space c' then [c] :: split_whitespace rest
               else match split_whitespace rest with
                    | piece :: pieces => (c :: piece) :: pieces
                    | [] => [[c]]
                    end
           end
  end.

(** [''.join(pieces)] *)
Definition join (pieces : list (list ascii)) : list ascii := concat pieces.

(** [\w] on ASCII: a letter, a digit or the underscore. *)
Definition is_word (c : ascii) : bool :=
  let n := N_of_ascii c in
  ((48 <=? n) && (n <=? 57) || (65 <=? n) && (n <=? 90)
   || (97 <=? n) && (n <=? 122) || (n =? 95))%N.

(** The double quote and the backslash. *)
Abbreviation dquote := (Ascii false true false false false true false false).
Abbreviation backslash := (Ascii false false true true true false true false).

(** The regular-expression substitution of [js_to_json], which puts every
    maximal run of word characters between double quotes; [in_word] tells
    that a run is open. *)
Fixpoint sub_words (in_word : bool) (s : list ascii) : list ascii :=
  match s with
  | [] => if in_word then [dquote] else []
  | c :: rest =>
      if is_word c then
        if in_word then c :: sub_words true rest
        else dquote :: c :: sub_words true rest
      else
        if in_word then dquote :: c :: sub_words false rest
        else c :: sub_words false rest
  end.

(** **** json.loads *)

(** What the decoder makes of a text: a value and the text after it, a
    [JSONDecodeError], or a construct this model leaves out (an escape in a
    string, a fraction or an exponent, [NaN] and the infinities). *)
Inductive parsed (A : Type) : Type :=
  | Parsed (a : A) (rest : list ascii)
  | Invalid
  | Unmodelled.
Arguments Parsed {A} a rest.
Arguments Invalid {A}.
Arguments Unmodelled {A}.

Definition is_json_space (c : ascii) : bool :=
  let n := N_of_ascii c in
  ((n =? 32) || (n =? 9) || (n =? 10) || (n =? 13))%N.

Fixpoint skip_ws (s : list ascii) : list ascii :=
  match s with
  | c :: rest => if is_json_space c then skip_ws rest else s
  | [] => []
  end.

(** The characters of a string, after its opening quote. *)
Fixpoint scan_string (s : list ascii) : parsed (list ascii) :=
  match s with
  | [] => Invalid
  | c :: rest =>
      if Ascii.eqb c dquote then Parsed [] rest
      else if Ascii.eqb c backslash then Unmodelled
      else if (N_of_ascii c <? 32)%N then Invalid
      else match scan_string rest with
           | Parsed str rest' => Parsed (c :: str) rest'
           | Invalid => Invalid
           | Unmodelled => Unmodelled
           end
  end.

Definition is_digit (c : ascii) : bool :=
  let n := N_of_ascii c in ((48 <=? n) && (n <=? 57))%N.

(** The digits at the head of [s], read after the value [acc]. *)
Fixpoint scan_digits (acc : Z) (s : list ascii) : Z * list ascii :=
  match s with
  | c :: rest =>
      if is_digit c
      then scan_digits (10 * acc + (Z.of_N (N_of_ascii c) - 48)) rest
      else (acc, s)
  | [] => (acc, [])
  end.

Definition starts_float_part (s : list ascii) : bool :=
  match s with
  | c :: _ => Ascii.eqb c "." || Ascii.eqb c "e" || Ascii.eqb c "E"
  | [] => false
  end.

(** An integer: an optional minus sign, then [0] or a run of digits that
    does not start with [0]. *)
Definition scan_number (s : list ascii) : parsed pyval :=
  let '(negative, digits) :=
    match s with
    | c :: rest => if Ascii.eqb c "-" then (true, rest) else (false, s)
    | [] => (false, s)
    end in
  match digits with
  | d :: after_first =>
      if Ascii.eqb d "0" then
        if starts_float_part after_first then Unmodelled
        else Parsed (PInt 0) after_first
      else if is_digit d then
        let '(n, rest) := scan_digits 0 digits in
        if starts_float_part rest then Unmodelled
        else Parsed (PInt (if negative then - n else n)) rest
      else if negative && Ascii.eqb d "I" then Unmodelled
      else Invalid
  | [] => Invalid
  end.

Definition scan_literal (s : list ascii) : parsed pyval :=
  if starts_with (list_ascii_of_string "null") s
  then Parsed PNone (drop 4 s)
  else if starts_with (list_ascii_of_string "true") s
  then Parsed (PBool true) (drop 4 s)
  else if starts_with (list_ascii_of_string "false") s
  then Parsed (PBool false) (drop 5 s)
  else if starts_with (list_ascii_of_string "NaN") s
          || starts_with (list_ascii_of_string "Infinity") s
  then Unmodelled
  else scan_number s.

(** [d[key] = value] on a dict kept in insertion order. *)
Fixpoint dict_set (key : string) (value : pyval)
    (d : list (string * pyval)) : list (string * pyval) :=
  match d with
  | [] => [(key, value)]
  | (k, v) :: rest =>
      if String.eqb k key then (k, value) :: rest
      else (k, v) :: dict_set key value rest
  end.

(** The decoder: [parse_value] reads a value at the head of [s];
    [parse_members] reads the members of an object from a key on, into the
    dict [d]; [parse_elements] reads the elements of an array.  Each call
    uses up one unit of [fuel]; [json_loads] gives enough. *)
Fixpoint parse_value (fuel : nat) (s : list ascii) : parsed pyval :=
  match fuel with
  | O => Unmodelled
  | S fuel' =>
      match s with
      | [] => Invalid
      | c :: rest =>
          if Ascii.eqb c dquote then
            match scan_string rest with
            | Parsed str rest' => Parsed (PStr (string_of_list_ascii str)) rest'
            | Invalid => Invalid
            | Unmodelled => Unmodelled
            end
          else if Ascii.eqb c "{" then
            match skip_ws rest with
            | c' :: rest' =>
                if Ascii.eqb c' "}" then Parsed (PDict []) rest'
                else parse_members fuel' (c' :: rest') []
            | [] => Invalid
            end
          else if Ascii.eqb c "[" then
            match skip_ws rest with
            | c' :: rest' =>
                if Ascii.eqb c' "]" then Parsed (PList []) rest'
                else parse_elements fuel' (c' :: rest') []
            | [] => Invalid
            end
          else scan_literal s
      end
  end
with parse_members (fuel : nat) (s : list ascii)
    (d : list (string * pyval)) : parsed pyval :=
  match fuel with
  | O => Unmodelled
  | S fuel' =>
      match s with
      | [] => Invalid
      | c :: rest =>
          if negb (Ascii.eqb c dquote) then Invalid
          else
            match scan_string rest with
            | Invalid => Invalid
            | Unmodelled => Unmodelled
            | Parsed key after_key =>
                match skip_ws after_key with
                | [] => Invalid
                | colon :: after_colon =>
                    if negb (Ascii.eqb colon ":") then Invalid
                    else
                      match parse_value fuel' (skip_ws after_colon) with
                      | Invalid => Invalid
                      | Unmodelled => Unmodelled
                      | Parsed value after_value =>
                          let d := dict_set (string_of_list_ascii key) value d in
                          match skip_ws after_value with
                          | [] => Invalid
                          | c' :: rest' =>
                              if Ascii.eqb c' "," then
                                parse_members fuel' (skip_ws rest') d
                              else if Ascii.eqb c' "}" then Parsed (PDict d) rest'
                              else Invalid
                          end
                      end
                end
            end
      end
  end
with parse_elements (fuel : nat) (s : list ascii) (items : list pyval)
    : parsed pyval :=
  match fuel with
  | O => Unmodelled
  | S fuel' =>
      match parse_value fuel' s with
      | Invalid => Invalid
      | Unmodelled => Unmodelled
      | Parsed value after_value =>
          match skip_ws after_value with
          | [] => Invalid
          | c' :: rest' =>
              if Ascii.eqb c' "," then
                parse_elements fuel' (skip_ws rest') (items ++ [value])
              else if Ascii.eqb c' "]" then Parsed (PList (items ++ [value])) rest'
              else Invalid
          end
      end
  end.

Definition JSONDecodeError : exn :=
  Exn (OtherException "json.decoder.JSONDecodeError") [].

(** [json.loads(s)]: [None] where the text has a construct left out of
    the model. *)
Definition json_loads (s : list ascii) : option (result pyval) :=
  match parse_value (S (length s)) (skip_ws s) with
  | Parsed v rest =>
      match skip_ws rest with
      | [] => Some (Ok v)
      | _ :: _ => Some (Raise JSONDecodeError)
      end
  | Invalid => Some (Raise JSONDecodeError)
  | Unmodelled => None
  end.

(** [js_to_json(s)] *)
Definition js_to_json (s : list ascii) : option (result pyval) :=
  match split "=" s with
  | _ :: split :: _ =>
      let clean :=
        rstrip [";"%char]
          (replace [","; "}"]%char ["}"%char]
             (replace ["'"%char] []
                (replace ["010"%char] [] split))) in
      let single_space := join (split_whitespace clean) in
      let dbl_quotes :=
        replace [dquote; dquote] [dquote] (sub_words false single_space) in
      let rm_comma :=
        replace ["}"; ","; "}"]%char ["}"; "}"]%char dbl_quotes in
      json_loads rm_comma
  | _ => Some (Raise (Exn (OtherException "IndexError")
                        [PStr "list index out of range"]))
  end.

(** [get_parameter_manifest()], on the text of [PARAMETERS_MANIFEST.js]. *)
Definition get_parameter_manifest (file : list ascii)
    : option (result pyval) :=
  js_to_json file.

(** *** fetch_inputs *)

(** What the module writes to standard output. *)
Inductive output : Type :=
  | PrintTraceback (e : exn)
  | PrintExecuting (FN : string) (previous_job_ids : list string).

(** The Redis store as the decorator sees it: [Job.fetch(ea, ...).result]
    gives the stored result of job [ea] or raises. *)
Definition job_store : Type := string -> result pyobj.

(** [mock is True] *)
Definition is_True (mock : pyval) : bool :=
  match mock with
  | PBool true => true
  | _ => false
  end.

(** The [for] loop inside the [try]: the list built so far, and the
    exception that ended the loop, if one did. *)
Fixpoint fetch_loop (store : job_store) (previous_job_ids : list string)
    (inputs : list pyobj) : list pyobj * option exn :=
  match previous_job_ids with
  | [] => (inputs, None)
  | ea :: rest =>
      match store ea with
      | Ok job_result => fetch_loop store rest (inputs ++ [job_result])
      | Raise e => (inputs, Some e)
      end
  end.

Definition fetch_inputs (store : job_store) (previous_job_ids : list string)
    (mock : pyval) : result (list pyobj) * list output :=
  if is_True mock then
    (box ← __init__ {[ "x" := PNdarray (np_linspace 0 10 100%nat) ]};
     Ok [VectorXY box], [])
  else
    match fetch_loop store previous_job_ids [] with
    | (inputs, None) => (Ok inputs, [])
    | (inputs, Some e) => (Ok inputs, [PrintTraceback e])
    end.

(** *** The decorator *)

(** The decorated function: its [__name__] and what calling it does. *)
Record node_function : Type := NodeFunction {
  __name__ : string;
  call : list pyobj -> gmap string pyval -> result pyobj
}.

(** What [inner] reads from outside: the text of
    [PARAMETERS_MANIFEST.js], which [get_parameter_manifest()] opens and
    reads, the elements of the control panel's state file, and the job
    store. *)
Record environment : Type := Environment {
  PARAMETERS_MANIFEST : list ascii;
  panel_elements : list element;
  redis : job_store
}.

(** A dict whose values are all read by [view], as a finite map; [None] for
    a value that is no dict, or holds a value [view] does not read.  The
    keys of a dict are all different, so every item is kept. *)
Definition dict_of {A} (view : pyval -> option A) (value : pyval)
    : option (gmap string A) :=
  match value with
  | PDict items =>
      list_to_map <$> mapM (fun kx => pair (fst kx) <$> view (snd kx)) items
  | _ => None
  end.

(** [pm = get_parameter_manifest()], with [pm] seen as the mapping the loops
    of [inner] index: function name, parameter name, then the parameter's
    attributes, ['default'] among them.  [None] where the model does not
    reach: the file holds a construct the decoder leaves out, or the value
    read is not an object of objects of objects. *)
Definition parameter_manifest (env : environment)
    : option (result (gmap string (gmap string (gmap string pyval)))) :=
  match get_parameter_manifest (PARAMETERS_MANIFEST env) with
  | None => None
  | Some (Raise e) => Some (Raise e)
  | Some (Ok pm) => Ok <$> dict_of (dict_of (dict_of Some)) pm
  end.

(** [for param in pm[FN]: default_params[param] = pm[FN][param]['default']] *)
Definition default_params_loop (pmFN : gmap string (gmap string pyval))
    : result (gmap string pyval) :=
  map_fold (fun param attrs acc =>
              default_params ← acc;
              d ← getitem attrs "default";
              Ok (<[param := d]> default_params))
           (Ok ∅) pmFN.

(** [for key in default_params.keys(): if key not in func_params.keys(): ...] *)
Definition fill_loop (default_params func_params : gmap string pyval)
    : gmap string pyval :=
  map_fold (fun key d func_params =>
              match func_params !! key with
              | Some _ => func_params
              | None => <[key := d]> func_params
              end)
           func_params default_params.

(** Lines 200 to 214: the parameters [inner] passes to the function;
    [None] where [parameter_manifest] is. *)
Definition func_params_of (env : environment) (FN : string)
    : option (result (gmap string pyval)) :=
  read ← parameter_manifest env;
  Some (pm ← read;
        pmFN ← getitem pm FN;
        default_params ← default_params_loop pmFN;
        user_set_parameters ← get_state (panel_elements env);
        let func_params :=
          match user_set_parameters !! FN with
          | Some params => params
          | None => default_params
          end in
        Ok (fill_loop default_params func_params)).

(** [flojoy(func)], applied: the output written and what the call returns
    or raises; [None] where [parameter_manifest] is. *)
Definition inner (env : environment) (func : node_function)
    (previous_job_ids : list string) (mock : pyval)
    : option (list output * result pyobj) :=
  let FN := __name__ func in
  func_params ← func_params_of env FN;
  Some match func_params with
       | Raise e => ([], Raise e)
       | Ok func_params =>
           match fetch_inputs (redis env) previous_job_ids mock with
           | (Raise e, out) => (out, Raise e)
           | (Ok node_inputs, out) =>
               (out ++ [PrintExecuting FN previous_job_ids],
                call func node_inputs func_params)
           end
       end.

End Flojoy.

(** ** flojoy/rq_worker.py *)

Module RqWorker.

Import Flojoy.

(** *** WindowsSignalDeathPenalty *)

(** Python's [threading.Timer(interval, function)]: a thread that, once
    started, waits [interval] seconds on its [finished] event and then
    calls [function] unless the event was set meanwhile; [cancel()] sets
    the event.  [function] is kept as what calling it does. *)
Record Timer : Type := mkTimer {
  interval : Z;
  function : result unit;
  start_time : option Z;
  finished : bool
}.

Definition Timer_start (t : Timer) (now : Z) : Timer :=
  mkTimer (interval t) (function t) (Some now) (finished t).

Definition Timer_cancel (t : Timer) : Timer :=
  mkTimer (interval t) (function t) (start_time t) true.

(** What the timer's thread has done once the clock shows [now]: with the
    deadline reached and the timer not cancelled, it has called [function];
    an exception raised there ends that thread, and no other.  The timer's
    turn comes before whatever the starting thread does at [now]: the
    timer is started before the work it bounds begins and cancelled after
    that work has ended, so the deadline of an interval as long as the
    work comes first. *)
Definition Timer_run (t : Timer) (now : Z) : Timer * list exn :=
  match start_time t with
  | None => (t, [])
  | Some started =>
      if finished t then (t, [])
      else if started + interval t <=? now then
        (Timer_cancel t,
         match function t with Raise e => [e] | Ok _ => [] end)
      else (t, [])
  end.

(** The fields [BaseDeathPenalty.__init__] receives ([timeout], [exception]
    and the keyword [job_id]) and the [_timer] the subclass adds. *)
Record WindowsSignalDeathPenalty : Type := mkPenalty {
  _timeout : Z;
  _exception : exn_class;
  job_id : string;
  _timer : option Timer
}.

Definition WindowsSignalDeathPenalty__init__ (timeout : Z)
    (exception : exn_class) (job_id : string) : WindowsSignalDeathPenalty :=
  mkPenalty timeout exception job_id None.

Definition handle_death_penalty (self : WindowsSignalDeathPenalty)
    : result unit :=
  Raise (Exn (_exception self)
           [PStr ("Task exceeded maximum timeout value ("
                  +:+ pretty (_timeout self) +:+ " seconds)")]).

Definition setup_death_penalty (self : WindowsSignalDeathPenalty) (now : Z)
    : WindowsSignalDeathPenalty :=
  let timer := mkTimer (_timeout self) (handle_death_penalty self) None false in
  mkPenalty (_timeout self) (_exception self) (job_id self)
    (Some (Timer_start timer now)).

Definition cancel_death_penalty (self : WindowsSignalDeathPenalty)
    : WindowsSignalDeathPenalty :=
  match _timer self with
  | Some timer =>
      mkPenalty (_timeout self) (_exception self) (job_id self)
        (Some (Timer_cancel timer))
  | None => self
  end.

(** *** WindowsWorker *)

Inductive JobStatus : Type := QUEUED | STARTED | FINISHED | FAILED.

(** An RQ job, with the attributes [perform_job] reads and writes.
    [_status] is the attribute RQ keeps the status in, [None] until it is
    set or loaded.  [status] is the attribute line 125 assigns to: in the
    releases of RQ whose [Worker.work] takes [with_scheduler], which
    [WindowsWorker.work] passes on, [rq.job.Job] has no property of that
    name (it went with its setter in RQ 1.0), so the assignment binds an
    attribute of the object, which nothing reads, and neither [_status]
    nor Redis changes. *)
Record Job : Type := mkJob {
  id : string;
  timeout : option Z;
  result_ttl : option Z;
  _status : option JobStatus;
  status : option JobStatus;
  _result : option pyobj;
  started_at : option Z;
  ended_at : option Z
}.

(** The commands sent to Redis, as far as the model follows them: those of
    the pipeline of [perform_job] and, of what [prepare_job_execution]
    sends, the two about the job.  Reads ([SMEMBERS], [HGET]) and the
    [UNWATCH] of a pipeline that is reset are left out. *)
Inductive command : Type :=
  | Watch (dependents_of : string)
  | EnqueueDependents (job : string)
  | SetCurrentJobId (job : option string)
  | IncrementSuccessfulJobCount
  | Save (job : Job)
  | Cleanup (job : string) (ttl : Z)
  | SetStatus (job : string) (status : JobStatus).

(** What a command makes of the status Redis holds for job [job]: a
    status that is set or saved replaces it, and a cleanup at a TTL of 0
    deletes the job. *)
Definition write_status (job : string) (stored : option JobStatus)
    (c : command) : option JobStatus :=
  match c with
  | SetStatus j s => if String.eqb j job then Some s else stored
  | Save j =>
      if String.eqb (id j) job then
        match _status j with Some s => Some s | None => stored end
      else stored
  | Cleanup j ttl => if String.eqb j job && (ttl =? 0) then None else stored
  | _ => stored
  end.

(** The status Redis holds for job [job] once it has received [cmds]. *)
Definition stored_status (job : string) (cmds : list command)
    : option JobStatus :=
  fold_left (write_status job) cmds None.

(** The calls into RQ and Redis made while the pipeline is open. *)
Inductive library_call : Type :=
  | call_watch
  | call_enqueue_dependents
  | call_set_current_job_id
  | call_increment_successful_job_count
  | call_save
  | call_cleanup
  | call_execute.

Inductive level : Type := INFO | WARNING.

(** The worker's settings: [queue_class.DEFAULT_TIMEOUT],
    [default_result_ttl], and which library calls fail, with what. *)
Record WorkerConfig : Type := mkConfig {
  DEFAULT_TIMEOUT : Z;
  default_result_ttl : Z;
  faults : library_call -> option exn
}.

(** [job.perform()]: how long the function runs and how it ends. *)
Record JobBody : Type := mkBody {
  duration : Z;
  outcome : result pyobj
}.

(** The state [perform_job] works on: the clock, the job, the commands
    Redis has received, the worker's log, the calls of [handle_exception],
    the death penalty in use, and the exceptions raised in timer threads.
    The clock counts the seconds the job's function runs; the time the
    calls around it take is not counted. *)
Record World : Type := mkWorld {
  clock : Z;
  job : Job;
  executed : list command;
  log : list (level * string);
  handled : list exn;
  penalty : option WindowsSignalDeathPenalty;
  thread_exceptions : list exn
}.

Definition set_job (j : Job) (w : World) : World :=
  mkWorld (clock w) j (executed w) (log w) (handled w) (penalty w)
    (thread_exceptions w).

Definition set_penalty (p : WindowsSignalDeathPenalty) (w : World) : World :=
  mkWorld (clock w) (job w) (executed w) (log w) (handled w) (Some p)
    (thread_exceptions w).

Definition send (cmds : list command) (w : World) : World :=
  mkWorld (clock w) (job w) (executed w ++ cmds) (log w) (handled w)
    (penalty w) (thread_exceptions w).

Definition log_message (l : level) (msg : string) (w : World) : World :=
  mkWorld (clock w) (job w) (executed w) (log w ++ [(l, msg)]) (handled w)
    (penalty w) (thread_exceptions w).

Definition handle_exception (e : exn) (w : World) : World :=
  mkWorld (clock w) (job w) (executed w) (log w) (handled w ++ [e])
    (penalty w) (thread_exceptions w).

(** [dt] seconds pass: the clock moves on and the timer thread, if one is
    waiting, gets its turn. *)
Definition elapse (dt : Z) (w : World) : World :=
  let now := clock w + dt in
  match penalty w with
  | Some p =>
      match _timer p with
      | Some timer =>
          let '(timer', raised) := Timer_run timer now in
          mkWorld now (job w) (executed w) (log w) (handled w)
            (Some (mkPenalty (_timeout p) (_exception p) (job_id p)
                     (Some timer')))
            (thread_exceptions w ++ raised)
      | None =>
          mkWorld now (job w) (executed w) (log w) (handled w) (penalty w)
            (thread_exceptions w)
      end
  | None =>
      mkWorld now (job w) (executed w) (log w) (handled w) (penalty w)
        (thread_exceptions w)
  end.

(** Attribute updates of the job: [job._status = s] (with [s] possibly
    [None], as a reload can leave it), [job.status = s], and so on. *)
Definition with__status (s : option JobStatus) (j : Job) : Job :=
  mkJob (id j) (timeout j) (result_ttl j) s (status j) (_result j)
    (started_at j) (ended_at j).

Definition with_status (s : JobStatus) (j : Job) : Job :=
  mkJob (id j) (timeout j) (result_ttl j) (_status j) (Some s) (_result j)
    (started_at j) (ended_at j).

Definition with_result (rv : pyobj) (j : Job) : Job :=
  mkJob (id j) (timeout j) (result_ttl j) (_status j) (status j) (Some rv)
    (started_at j) (ended_at j).

Definition with_started_at (t : Z) (j : Job) : Job :=
  mkJob (id j) (timeout j) (result_ttl j) (_status j) (status j) (_result j)
    (Some t) (ended_at j).

Definition with_ended_at (t : Z) (j : Job) : Job :=
  mkJob (id j) (timeout j) (result_ttl j) (_status j) (status j) (_result j)
    (started_at j) (Some t).

(** [self.prepare_job_execution(job)]: RQ marks the job as started, in the
    object and, through a pipeline of its own, in Redis.  Of the commands
    RQ sends there the model keeps the worker's current job and the job's
    status. *)
Definition prepare_job_execution (w : World) : World :=
  send [SetCurrentJobId (Some (id (job w))); SetStatus (id (job w)) STARTED]
    (set_job (with__status (Some STARTED) (job w)) w).

(** [job.timeout or self.queue_class.DEFAULT_TIMEOUT] *)
Definition timeout_or_default (j : Job) (cfg : WorkerConfig) : Z :=
  match timeout j with
  | Some t => if t =? 0 then DEFAULT_TIMEOUT cfg else t
  | None => DEFAULT_TIMEOUT cfg
  end.

(** [job.get_result_ttl(default_ttl)]: the job's own TTL when it has one. *)
Definition get_result_ttl (j : Job) (default_ttl : Z) : Z :=
  match result_ttl j with
  | Some ttl => ttl
  | None => default_ttl
  end.

(** [with self.death_penalty_class(...): rv = job.perform()]: RQ's
    [BaseDeathPenalty] calls [setup_death_penalty] on entry and
    [cancel_death_penalty] on exit, however the body ends; the body runs in
    the worker's thread for its [duration], during which the timer thread
    may get its turn. *)
Definition under_death_penalty (p : WindowsSignalDeathPenalty)
    (body : JobBody) (w : World) : World * result pyobj :=
  let w := set_penalty (setup_death_penalty p (clock w)) w in
  let w := elapse (duration body) w in
  let w := match penalty w with
           | Some p => set_penalty (cancel_death_penalty p) w
           | None => w
           end in
  (w, outcome body).

Definition called (cfg : WorkerConfig) (c : library_call) : result unit :=
  match faults cfg c with
  | Some e => Raise e
  | None => Ok tt
  end.

(** [job.cleanup(ttl, pipeline=pipeline, remove_from_queue=False)], as far
    as it touches the job object: at a TTL of 0 RQ deletes the job, and to
    find the registry to take it from it asks [job.get_status()], which
    loads [_status] from Redis, where the commands queued on the pipeline
    have not arrived yet.  At any other TTL the object is left alone. *)
Definition cleanup (ttl : Z) (sent : list command) (j : Job) : Job :=
  if ttl =? 0 then with__status (stored_status (id j) sent) j else j.

(** What lines 110 to 119 queue on the pipeline, with the resolved TTL. *)
Definition queued (cfg : WorkerConfig) (j : Job)
    : result (Z * list command) :=
  _ ← called cfg call_enqueue_dependents;
  let pipeline := [EnqueueDependents (id j)] in
  _ ← called cfg call_set_current_job_id;
  let pipeline := pipeline ++ [SetCurrentJobId None] in
  _ ← called cfg call_increment_successful_job_count;
  let pipeline := pipeline ++ [IncrementSuccessfulJobCount] in
  let result_ttl := get_result_ttl j (default_result_ttl cfg) in
  pipeline ← (if negb (result_ttl =? 0)
              then (_ ← called cfg call_save; Ok (pipeline ++ [Save j]))
              else Ok pipeline);
  _ ← called cfg call_cleanup;
  Ok (result_ttl, pipeline ++ [Cleanup (id j) result_ttl]).

(** The block taken from [Worker.handle_job_success].  [pipeline.watch]
    reaches Redis at once: a pipeline buffers commands only from [multi()]
    on, which [enqueue_dependents] calls.  The commands after it are
    queued, and sent by [pipeline.execute()]; when a call raises before,
    they are dropped.  Gives the state the block leaves and the resolved
    TTL. *)
Definition handle_job_success (cfg : WorkerConfig) (w : World)
    : World * result Z :=
  match called cfg call_watch with
  | Raise e => (w, Raise e)
  | Ok _ =>
      let w := send [Watch (id (job w))] w in
      match queued cfg (job w) with
      | Raise e => (w, Raise e)
      | Ok (result_ttl, pipeline) =>
          let w := set_job (cleanup result_ttl (executed w) (job w)) w in
          match called cfg call_execute with
          | Raise e => (w, Raise e)
          | Ok _ => (send pipeline w, Ok result_ttl)
          end
      end
  end.

(** The [try] block of [perform_job]. *)
Definition try_block (cfg : WorkerConfig) (body : JobBody) (w : World)
    : World * result (pyobj * Z) :=
  let w := set_job (with_started_at (clock w) (job w)) w in
  let timeout := timeout_or_default (job w) cfg in
  let death_penalty :=
    WindowsSignalDeathPenalty__init__ timeout JobTimeoutException
      (id (job w)) in
  match under_death_penalty death_penalty body w with
  | (w, Raise e) => (w, Raise e)
  | (w, Ok rv) =>
      let w := set_job (with_ended_at (clock w) (job w)) w in
      let w := set_job (with_result rv (job w)) w in
      let w := set_job (with__status (Some FINISHED) (job w)) w in
      let w := set_job (with_ended_at (clock w) (job w)) w in
      match handle_job_success cfg w with
      | (w, Raise e) => (w, Raise e)
      | (w, Ok result_ttl) => (w, Ok (rv, result_ttl))
      end
  end.

(** [rv is None] *)
Definition is_None (rv : pyobj) : bool :=
  match rv with
  | Plain PNone => true
  | _ => false
  end.

(** [perform_job].  In the [except] clause [job.status = FAILED] binds the
    attribute [status] (see [Job]); the status RQ keeps and the one in
    Redis stay as they were. *)
Definition perform_job (cfg : WorkerConfig) (body : JobBody) (w : World)
    : World * bool :=
  let w := prepare_job_execution w in
  match try_block cfg body w with
  | (w, Raise e) =>
      let w := set_job (with_status FAILED (job w)) w in
      let w := handle_exception e w in
      (w, false)
  | (w, Ok (rv, result_ttl)) =>
      let w := if is_None rv then log_message INFO "Job OK" w
               else log_message INFO "Job OK, result =" w in
      let w :=
        if result_ttl =? 0 then
          log_message INFO "Result discarded immediately." w
        else if result_ttl >? 0 then
          log_message INFO
            ("Result is kept for " +:+ pretty result_ttl +:+ " seconds.") w
        else
          log_message WARNING
            "Result will never expire, clean up result key manually." w in
      (w, true)
  end.

End RqWorker.

(** ** flojoy/rq_worker.py: the work horse *)

Module WorkHorse.

Import Flojoy RqWorker.

(** [WindowsWorker.__init__]: the keyword arguments handed on to
    [rq.Worker.__init__], after
    [if kwargs.get("default_worker_ttl", None) is None]. *)
Definition WindowsWorker__init__ (kwargs : gmap string pyval)
    : gmap string pyval :=
  match kwargs !! "default_worker_ttl" with
  | None | Some PNone => <["default_worker_ttl" := PInt 2]> kwargs
  | Some _ => kwargs
  end.

(** The worker while it runs a job: the [_is_horse] flag and the state
    [perform_job] works on. *)
Record Horse : Type := mkHorse {
  _is_horse : bool;
  world : World
}.

(** [main_work_horse]: the job is performed in the worker's own process,
    between setting and clearing [_is_horse]; what [perform_job] returns is
    dropped. *)
Definition main_work_horse (cfg : WorkerConfig) (body : JobBody)
    (self : Horse) : Horse :=
  let self := mkHorse true (world self) in
  let '(w, _) := perform_job cfg body (world self) in
  mkHorse false w.

Definition execute_job (cfg : WorkerConfig) (body : JobBody) (self : Horse)
    : Horse :=
  main_work_horse cfg body self.

End WorkHorse.

(** * Statements

    The notions the properties below are stated with. *)

Import Flojoy RqWorker.

(** ** Control-panel state *)

(** The elements [get_state] can read: every element that is not an edge
    has a ['data'] object and an ['id']. *)
Definition readable (el : element) : Prop :=
  el_source el = None -> is_Some (el_data el) /\ is_Some (el_id el).

(** [el] is a node labelled [LABEL] whose controls (the empty mapping when
    its data has none) are [c]. *)
Definition node_with (el : element) (LABEL : string) (c : gmap string pyval) : Prop :=
  exists data id,
    el_source el = None /\ el_data el = Some data /\ el_id el = Some id /\
    label_of id = LABEL /\ c = default ∅ (ctrls data).

(** [el] is not a node labelled [LABEL]. *)
Definition other_label (LABEL : string) (el : element) : Prop :=
  forall c, ~ node_with el LABEL c.

(** The specification's reading of a contribution: the id of [el] is
    [LABEL-suffix] and its data has [ctrls] equal to [c]. *)
Definition contributes (el : element) (LABEL : string) (c : gmap string pyval) : Prop :=
  exists suffix,
    el_id el = Some (LABEL +:+ "-" +:+ suffix) /\
    ("-"%char ∉ list_ascii_of_string LABEL) /\
    (el_data el ≫= ctrls) = Some c.

(** Two nodes with the label [SINE], the second without controls. *)
Definition two_SINE_nodes : list element :=
  [ Element (Some "SINE-1") None (Some (NodeData (Some {[ "frequency" := PInt 5 ]})));
    Element (Some "SINE-2") None (Some (NodeData None)) ].

(** ** VectorXY *)

Definition is_ndarray (value : pyval) : Prop :=
  exists a, value = PNdarray a.

(** The invariant: exactly the keys ['x'] and ['y'], each bound to an array. *)
Definition xy_invariant (self : gmap string pyval) : Prop :=
  forall key,
    (key = "x" \/ key = "y" -> exists a, self !! key = Some (PNdarray a)) /\
    (key <> "x" -> key <> "y" -> self !! key = None).

(** The objects written through the methods the class defines, and no
    other: built by the constructor, then changed by item assignment. *)
Inductive constructed : gmap string pyval -> Prop :=
  | constructed_init kwargs self :
      __init__ kwargs = Ok self -> constructed self
  | constructed_setitem self key value self' :
      constructed self -> __setitem__ self key value = Ok self' ->
      constructed self'.

(** The objects a program can hold: the class inherits the writers of
    [Box] and [dict] that it does not override, [clear] among them. *)
Inductive held : gmap string pyval -> Prop :=
  | held_init kwargs self :
      __init__ kwargs = Ok self -> held self
  | held_setitem self key value self' :
      held self -> __setitem__ self key value = Ok self' -> held self'
  | held_clear self :
      held self -> held (clear self).

Definition empty_array : pyval := PNdarray (np_array (PList [])).

(** [VectorXY()] *)
Definition empty_VectorXY : gmap string pyval :=
  <["y" := empty_array]> (<["x" := empty_array]> ∅).

(** ** js_to_json *)

(** An object literal whose keys and values are words or objects of the
    same kind. *)
Inductive js : Type :=
  | JsWord (w : list ascii)
  | JsObject (members : list (list ascii * js)).

(** The members of an object, [render_value] giving the text of a value. *)
Fixpoint render_members (render_value : js -> list ascii)
    (q colon comma : list ascii) (members : list (list ascii * js))
    : list ascii :=
  match members with
  | [] => []
  | (k, v) :: rest =>
      q ++ k ++ q ++ colon ++ render_value v ++
      match rest with
      | [] => []
      | _ :: _ => comma ++ render_members render_value q colon comma rest
      end
  end.

(** The text of a literal: [q] around every word, [colon] after a key,
    [comma] between members. *)
Fixpoint render (q colon comma : list ascii) (v : js) : list ascii :=
  match v with
  | JsWord w => q ++ w ++ q
  | JsObject members =>
      "{"%char :: render_members (render q colon comma) q colon comma members
      ++ ["}"%char]
  end.

(** [d[key] = value] for a member [(key, value)]. *)
Definition set_member (d : list (string * pyval)) (kv : list ascii * pyval)
    : list (string * pyval) :=
  dict_set (string_of_list_ascii (fst kv)) (snd kv) d.

(** What Python reads from the literal once every word is quoted. *)
Fixpoint quoted (v : js) : pyval :=
  match v with
  | JsWord w => PStr (string_of_list_ascii w)
  | JsObject members =>
      PDict (fold_left set_member
               (map (fun kv => (fst kv, quoted (snd kv))) members) [])
  end.

(** A word: a non-empty run of word characters. *)
Definition word (w : list ascii) : Prop :=
  w <> [] /\ Forall (fun c => is_word c = true) w.

(** Every key and every leaf of the literal is a word. *)
Fixpoint well_formed (v : js) : Prop :=
  match v with
  | JsWord w => word w
  | JsObject members =>
      (fix all (ms : list (list ascii * js)) : Prop :=
         match ms with
         | [] => True
         | (k, v) :: rest => word k /\ well_formed v /\ all rest
         end) members
  end.

Definition well_formed_members (ms : list (list ascii * js)) : Prop :=
  Forall (fun kv => word (fst kv) /\ well_formed (snd kv)) ms.

(** The text [s] does not go on with a word character. *)
Definition word_ends (s : list ascii) : Prop :=
  match s with
  | [] => True
  | c :: _ => is_word c = false
  end.

(** The literal as written, without blanks, and with its words quoted. *)
Definition source : js -> list ascii := render [] [":"; " "]%char [","; " "]%char.
Definition compact : js -> list ascii := render [] [":"%char] [","%char].
Definition quoted_text : js -> list ascii :=
  render [dquote] [":"%char] [","%char].

(** The text [s] does not go on with a double quote. *)
Definition no_quote_next (s : list ascii) : Prop :=
  starts_with [dquote] s = false.

(** The text [s] does not go on with a comma and a closing brace. *)
Definition no_comma_brace_next (s : list ascii) : Prop :=
  starts_with [","; "}"]%char s = false.

(** The statement given to [js_to_json]: a name, the equals sign, the
    literal and a semicolon. *)
Definition statement (name : list ascii) (v : js) : list ascii :=
  name ++ list_ascii_of_string " = " ++ source v ++ [";"%char].

(** Every leaf of the value is a string. *)
Fixpoint strings_only (v : pyval) : Prop :=
  match v with
  | PStr _ => True
  | PDict items =>
      (fix all (l : list (string * pyval)) : Prop :=
         match l with
         | [] => True
         | (_, x) :: rest => strings_only x /\ all rest
         end) items
  | _ => False
  end.

(** A flat literal: every value is a word. *)
Definition flat (members : list (list ascii * list ascii)) : js :=
  JsObject (map (fun kv => (fst kv, JsWord (snd kv))) members).

Definition newline : ascii := "010"%char.

(** A manifest file as the front end writes it, over several lines and with
    trailing commas. *)
Definition manifest_file : list ascii :=
  list_ascii_of_string "export const PARAMETERS = {" ++ newline ::
  list_ascii_of_string "  SINE: {" ++ newline ::
  list_ascii_of_string "    frequency: {default: 1}," ++ newline ::
  list_ascii_of_string "    amplitude: {default: 1}," ++ newline ::
  list_ascii_of_string "  }," ++ newline ::
  list_ascii_of_string "};" ++ [newline].

(** The JSON text of an object with the key [default] bound to the number 1. *)
Definition default_one_json : list ascii :=
  "{"%char :: dquote :: list_ascii_of_string "default" ++ dquote ::
  list_ascii_of_string ": 1}".

(** ** fetch_inputs *)

Definition connection_error : exn :=
  Exn (OtherException "redis.exceptions.ConnectionError") [PStr "Connection refused"].

(** A store that holds the result of job ["a"] and fails on any other id. *)
Definition store_with_a : job_store := fun ea =>
  if String.eqb ea "a" then Ok (Plain (PInt 42)) else Raise connection_error.

(** ** The decorator *)

(** The mapping [get_parameter_manifest()] returns for [manifest_file]:
    the defaults are the strings the reader makes of the numbers written
    in the file. *)
Definition SINE_manifest : gmap string (gmap string (gmap string pyval)) :=
  {[ "SINE" := {[ "frequency" := {[ "default" := PStr "1" ]};
                  "amplitude" := {[ "default" := PStr "1" ]} ]} ]}.

Definition SINE_panel : list element :=
  [ Element (Some "SINE-2cd08316") None
      (Some (NodeData (Some {[ "frequency" := PInt 5 ]}))) ].

(** The manifest file
    [{SINE: {frequency: {default: 1}, amplitude: {default: 1}}}] and the
    user state [{SINE: {frequency: 5}}]. *)
Definition SINE_environment (store : job_store) : environment :=
  Environment manifest_file SINE_panel store.

(** A node function named [SINE]. *)
Definition SINE : node_function :=
  NodeFunction "SINE" (fun node_inputs params => Ok (Plain (PDict (map_to_list params)))).

Definition empty_store : job_store :=
  fun _ => Raise (Exn (OtherException "rq.exceptions.NoSuchJobError") []).

(** ** The worker *)

(** The job as the [try] block leaves it, before the bookkeeping, when the
    body returned [rv]. *)
Definition finished_job (rv : pyobj) (started ended : Z) (j : Job) : Job :=
  mkJob (id j) (timeout j) (result_ttl j) (Some FINISHED) (status j) (Some rv)
    (Some started) (Some ended).

(** The outcome of the bookkeeping, with the value the body returned. *)
Definition with_value (rv : pyobj) (r : World * result Z)
    : World * result (pyobj * Z) :=
  (fst r, result_ttl ← snd r; Ok (rv, result_ttl)).

(** The [except] clause and the closing log lines of [perform_job]. *)
Definition failed (e : exn) (w : World) : World :=
  handle_exception e (set_job (with_status FAILED (job w)) w).

Definition ttl_message (ttl : Z) : level * string :=
  if ttl =? 0 then (INFO, "Result discarded immediately.")
  else if ttl >? 0 then
    (INFO, "Result is kept for " +:+ pretty ttl +:+ " seconds.")
  else (WARNING, "Result will never expire, clean up result key manually.").

Definition ok_message (rv : pyobj) : string :=
  if is_None rv then "Job OK" else "Job OK, result =".

(** The [job.save] of the pipeline, skipped at a TTL of 0. *)
Definition saved_commands (ttl : Z) (j : Job) : list command :=
  if ttl =? 0 then [] else [Save j].

(** The state when the [with] block around [job.perform()] is left. *)
Definition after_body (cfg : WorkerConfig) (body : JobBody) (w : World)
    : World :=
  let w0 := prepare_job_execution w in
  fst (under_death_penalty
         (WindowsSignalDeathPenalty__init__
            (timeout_or_default (job w) cfg) JobTimeoutException (id (job w)))
         body (set_job (with_started_at (clock w0) (job w0)) w0)).

(** A worker none of whose library calls fails. *)
Definition no_faults : WorkerConfig := mkConfig 180 500 (fun _ => None).

(** The worker before it takes up job [j]. *)
Definition idle_world (j : Job) : World := mkWorld 0 j [] [] [] None [].

(** A job as the queue hands it to the worker, and a body that raises after
    one second. *)
Definition queued_job : Job :=
  mkJob "job-C" (Some 5) None (Some QUEUED) None None None None.

Definition raising_body : JobBody :=
  mkBody 1 (Raise (Exn ValueError [PStr "bad input"])).

(** Time passing in several steps. *)
Definition elapse_all (dts : list Z) (w : World) : World :=
  fold_left (fun w dt => elapse dt w) dts w.

(** The timer is started and neither cancelled nor fired. *)
Definition armed (p : WindowsSignalDeathPenalty) : Prop :=
  exists t started,
    _timer p = Some t /\ start_time t = Some started /\ finished t = false.

(** No timer of the world is waiting to fire. *)
Definition disarmed (w : World) : Prop :=
  forall p t, penalty w = Some p -> _timer p = Some t -> finished t = true.

Definition timeout_message (timeout : Z) : string :=
  "Task exceeded maximum timeout value (" +:+ pretty timeout +:+ " seconds)".

(** A job with a timeout of 1 second, and a body that takes 2 seconds. *)
Definition slow_job : Job :=
  mkJob "job-A" (Some 1) None (Some QUEUED) None None None None.

Definition slow_body : JobBody := mkBody 2 (Ok (Plain (PInt 42))).

(** A body that returns within the timeout, and a job whose result is to
    be discarded. *)
Definition quick_body : JobBody := mkBody 1 (Ok (Plain (PInt 42))).

Definition discard_job : Job :=
  mkJob "job-B" (Some 5) (Some 0) (Some QUEUED) None None None None.

(** ** Control-panel state and VectorXY, continued *)

(** A node without data, between a readable node and one more node. *)
Definition node_without_data : element := Element (Some "SINE-2") None None.

(** The keyword argument [key] can be made an array, or is not given. *)
Definition acceptable (kwargs : gmap string pyval) (key : string) : Prop :=
  match kwargs !! key with
  | Some value => exists value', _ndarrayify value = Ok value'
  | None => True
  end.

(** ** fetch_inputs and the decorator, continued *)

(** A manifest file whose parameter [frequency] has a type but no
    default, and the mapping read from it. *)
Definition manifest_file_without_default : list ascii :=
  list_ascii_of_string
    "export const PARAMETERS = {SINE: {frequency: {type: number}}};".

Definition manifest_without_default
    : gmap string (gmap string (gmap string pyval)) :=
  {[ "SINE" := {[ "frequency" := {[ "type" := PStr "number" ]} ]} ]}.

(** A panel on which the user has set a parameter the manifest does not
    list. *)
Definition panel_with_unknown_parameter : list element :=
  [ Element (Some "SINE-1") None
      (Some (NodeData (Some {[ "phase" := PInt 90 ]}))) ].

(** ** js_to_json, continued *)

(** [IndexError], as [js_to_json] raises it on [s.split('=')[1]]. *)
Definition IndexError : exn :=
  Exn (OtherException "IndexError") [PStr "list index out of range"].

(** The characters [js_to_json] deletes wherever they stand: the newline
    and the single quote. *)
Definition deleted (c : ascii) : bool :=
  Ascii.eqb c "010" || Ascii.eqb c "'".

(** ** The mapping js_to_json returns *)

(** The members of a literal as Python reads them one by one. *)
Definition read_members (ms : list (list ascii * js))
    : list (string * pyval) :=
  map (fun kv => (string_of_list_ascii (fst kv), quoted (snd kv))) ms.

(** ** The worker, continued *)

(** What [prepare_job_execution] sends to Redis for job [j]. *)
Definition prepare_commands (j : Job) : list command :=
  [SetCurrentJobId (Some (id j)); SetStatus (id j) STARTED].


(** The exception the timer thread raises for a timeout of [timeout]. *)
Definition timeout_exn (timeout : Z) : exn :=
  Exn JobTimeoutException [PStr (timeout_message timeout)].

(** * Properties *)

(** ** Control-panel state *)

Lemma get_state_loop_lookup (elems : list element) :
  Forall readable elems ->
  forall acc, exists m,
    get_state_loop elems acc = Ok m /\
    forall LABEL c,
      m !! LABEL = Some c <->
      (exists before el after,
         elems = before ++ el :: after /\ node_with el LABEL c /\
         Forall (other_label LABEL) after) \/
      (acc !! LABEL = Some c /\ Forall (other_label LABEL) elems).
Proof.
  induction 1 as [|el rest Hel Hrest IH]; intros acc.
  - exists acc. split; [done|]. intros LABEL c. split.
    + intros H. right. split; [done | constructor].
    + intros [(before & el & after & Heq & _) | [H _]]; [|done].
      by destruct before.
  - simpl. unfold get_state_step.
    destruct (el_source el) as [src|] eqn:Hsrc.
    + simpl. destruct (IH acc) as (m & Hm & Hlk). exists m. split; [done|].
      assert (Hother : forall LABEL, other_label LABEL el).
      { intros LABEL c (data & id & Hs & _). congruence. }
      intros LABEL c. rewrite Hlk. split.
      * intros [(before & el' & after & -> & Hn & Ha) | [Hacc Ha]].
        -- left. exists (el :: before), el', after. done.
        -- right. split; [done|]. constructor; [apply Hother | done].
      * intros [(before & el' & after & Heq & Hn & Ha) | [Hacc Ha]].
        -- left. destruct before as [|b before]; simpl in Heq.
           ++ injection Heq as <- <-. exfalso. by apply (Hother LABEL c).
           ++ injection Heq as <- ->. exists before, el', after. done.
        -- right. split; [done|]. by inversion Ha.
    + destruct (Hel Hsrc) as [[data Hdata] [id Hid]].
      rewrite Hdata, Hid. simpl.
      set (cs := match ctrls data with Some c => c | None => ∅ end).
      destruct (IH (<[label_of id := cs]> acc)) as (m & Hm & Hlk).
      exists m. split; [done|].
      assert (Hnode : node_with el (label_of id) cs).
      { exists data, id. by repeat split. }
      assert (Hinv : forall LABEL c, node_with el LABEL c -> LABEL = label_of id /\ c = cs).
      { intros LABEL c (data' & id' & _ & Hd' & Hi' & <- & ->).
        rewrite Hdata in Hd'. rewrite Hid in Hi'.
        injection Hd' as <-. injection Hi' as <-.
        split; [done|]. unfold cs. by destruct (ctrls data). }
      intros LABEL c. rewrite Hlk. split.
      * intros [(before & el' & after & -> & Hn & Ha) | [Hacc Ha]].
        -- left. exists (el :: before), el', after. done.
        -- destruct (decide (label_of id = LABEL)) as [<-|Hne].
           ++ rewrite lookup_insert_eq in Hacc. injection Hacc as <-.
              left. exists [], el, rest. done.
           ++ rewrite lookup_insert_ne in Hacc by done.
              right. split; [done|]. constructor; [|done].
              intros c' Hc'. apply Hinv in Hc' as [-> _]. done.
      * intros [(before & el' & after & Heq & Hn & Ha) | [Hacc Ha]].
        -- destruct before as [|b before]; simpl in Heq.
           ++ injection Heq as <- <-. apply Hinv in Hn as [-> ->].
              right. split; [by rewrite lookup_insert_eq | done].
           ++ injection Heq as <- ->. left. exists before, el', after. done.
        -- inversion Ha as [|? ? Hel' Hrest']; subst.
           right. split; [|done].
           rewrite lookup_insert_ne; [done|].
           intros <-. by apply (Hel' cs).
Qed.

Lemma split_hd_no_sep (sep : ascii) (s : list ascii) :
  sep ∉ s -> hd [] (split sep s) = s.
Proof.
  induction s as [|c s IH]; [done|].
  intros Hnot. simpl.
  destruct (Ascii.eqb_spec c sep) as [->|Hne].
  - exfalso. apply Hnot. left.
  - assert (Hs : sep ∉ s) by (intros H; apply Hnot; by right).
    specialize (IH Hs). destruct (split sep s); simpl in *; by subst.
Qed.

Lemma split_hd_sep (sep : ascii) (s rest : list ascii) :
  sep ∉ s -> hd [] (split sep (s ++ sep :: rest)) = s.
Proof.
  induction s as [|c s IH]; intros Hnot; simpl.
  - by rewrite Ascii.eqb_refl.
  - destruct (Ascii.eqb_spec c sep) as [->|Hne].
    + exfalso. apply Hnot. left.
    + assert (Hs : sep ∉ s) by (intros H; apply Hnot; by right).
      specialize (IH Hs). destruct (split sep (s ++ sep :: rest)); simpl in *; by subst.
Qed.

Lemma list_ascii_of_string_app (s t : string) :
  list_ascii_of_string (s +:+ t) = list_ascii_of_string s ++ list_ascii_of_string t.
Proof. induction s as [|c s IH]; simpl; [done | by rewrite <- IH]. Qed.

Lemma label_of_prefix (LABEL suffix : string) :
  "-"%char ∉ list_ascii_of_string LABEL ->
  label_of (LABEL +:+ "-" +:+ suffix) = LABEL.
Proof.
  intros H. unfold label_of.
  rewrite list_ascii_of_string_app. simpl.
  rewrite (split_hd_sep "-"%char _ _ H).
  apply string_of_list_ascii_of_string.
Qed.

Lemma label_of_whole (id : string) :
  "-"%char ∉ list_ascii_of_string id -> label_of id = id.
Proof.
  intros H. unfold label_of. rewrite (split_hd_no_sep _ _ H).
  apply string_of_list_ascii_of_string.
Qed.

(** C7 does not hold as stated: of two nodes labelled [SINE], the second
    without [ctrls], [get_state] keeps [SINE] bound to the empty mapping,
    and the controls of the first are lost. *)
Lemma get_state_not_exactly_ctrls :
  exists m, get_state two_SINE_nodes = Ok m /\
    ~ (forall LABEL c,
         m !! LABEL = Some c <->
         exists el, el ∈ two_SINE_nodes /\ contributes el LABEL c).
Proof.
  exists {[ "SINE" := ∅ ]}. split; [vm_compute; reflexivity|].
  intros H.
  assert (Hc : ({[ "SINE" := ∅ ]} : gmap string (gmap string pyval)) !! "SINE"
               = Some {[ "frequency" := PInt 5 ]}).
  { apply H. eexists. split; [left|]. exists "1". repeat split.
    intros Hin. vm_compute in Hin. 
    repeat (apply elem_of_cons in Hin as [Hin|Hin]; [discriminate|]).
    by apply elem_of_nil in Hin. }
  vm_compute in Hc. discriminate.
Qed.

(** C7, amended.  When every element without a ['source'] has a ['data']
    object and an ['id'], [get_state] returns the mapping that binds each
    label to the controls of the last element without ['source'] that has
    this label, the empty mapping when the data of that element has no
    ['ctrls']; the label of an element is the part of its id before the
    first ['-'], the whole id when it has none. *)
Theorem get_state_last_node_wins (elems : list element) :
  Forall readable elems ->
  (exists m,
     get_state elems = Ok m /\
     forall LABEL c,
       m !! LABEL = Some c <->
       exists before el after,
         elems = before ++ el :: after /\ node_with el LABEL c /\
         Forall (other_label LABEL) after) /\
  (forall LABEL suffix, "-"%char ∉ list_ascii_of_string LABEL ->
     label_of (LABEL +:+ "-" +:+ suffix) = LABEL) /\
  (forall id, "-"%char ∉ list_ascii_of_string id -> label_of id = id).
Proof.
  intros Hwf. split; [| split; [apply label_of_prefix | apply label_of_whole]].
  destruct (get_state_loop_lookup elems Hwf ∅) as (m & Hm & Hlk).
  exists m. split; [done|]. intros LABEL c. rewrite Hlk. split.
  - intros [H | [H _]]; [done|]. by rewrite lookup_empty in H.
  - intros H. by left.
Qed.

(** C7, amended, at the two [SINE] nodes. *)
Lemma get_state_last_node_wins_witness :
  exists m,
    get_state two_SINE_nodes = Ok m /\
    forall LABEL c,
      m !! LABEL = Some c <->
      exists before el after,
        two_SINE_nodes = before ++ el :: after /\ node_with el LABEL c /\
        Forall (other_label LABEL) after.
Proof.
  apply (get_state_last_node_wins two_SINE_nodes).
  repeat constructor; eexists; reflexivity.
Defined.

(** ** VectorXY *)

Lemma xy_key_spec key : xy_key key = true <-> key = "x" \/ key = "y".
Proof.
  unfold xy_key. rewrite orb_true_iff, !String.eqb_eq. done.
Qed.

Lemma _ndarrayify_cases value :
  match value with
  | PInt _ | PFloat _ => _ndarrayify value = Ok (PNdarray (np_array (PList [value])))
  | PList _ => _ndarrayify value = Ok (PNdarray (np_array value))
  | PNdarray _ => _ndarrayify value = Ok value
  | _ => _ndarrayify value = Raise (Exn ValueError [value])
  end.
Proof. by destruct value. Qed.

Lemma _ndarrayify_Ok value value' :
  _ndarrayify value = Ok value' -> is_ndarray value'.
Proof.
  pose proof (_ndarrayify_cases value) as H.
  destruct value; rewrite H; intros [= <-]; by eexists.
Qed.

Lemma __setitem___Ok self key value self' :
  __setitem__ self key value = Ok self' ->
  (key = "x" \/ key = "y") /\
  exists value', _ndarrayify value = Ok value' /\ self' = <[key := value']> self.
Proof.
  unfold __setitem__. destruct (xy_key key) eqn:Hk; simpl; [|discriminate].
  apply xy_key_spec in Hk. destruct (_ndarrayify value) as [v|e]; simpl; [|discriminate].
  intros [= <-]. eauto.
Qed.

Lemma __setitem___preserves self key value self' :
  xy_invariant self -> __setitem__ self key value = Ok self' -> xy_invariant self'.
Proof.
  intros Hinv Hset. apply __setitem___Ok in Hset as (Hkey & v & Hv & ->).
  apply _ndarrayify_Ok in Hv as [a ->].
  intros k. destruct (Hinv k) as [Hin Hout]. split.
  - intros Hk. destruct (decide (key = k)) as [->|Hne].
    + rewrite lookup_insert_eq. eauto.
    + rewrite lookup_insert_ne by done. auto.
  - intros Hx Hy. rewrite lookup_insert_ne; [auto|]. intros ->. tauto.
Qed.

Lemma bind_Ok_l {A B} (a : A) (k : A -> result B) : (Ok a ≫= k) = k a.
Proof. reflexivity. Qed.

Lemma __setitem___ndarray self key a :
  xy_key key = true ->
  __setitem__ self key (PNdarray a) = Ok (<[key := PNdarray a]> self).
Proof. intros Hk. unfold __setitem__. by rewrite Hk. Qed.

Lemma __init___Ok kwargs self :
  __init__ kwargs = Ok self ->
  exists x y,
    self = <["y" := PNdarray y]> (<["x" := PNdarray x]> ∅) /\
    (kwargs !! "x" = None -> PNdarray x = empty_array) /\
    (kwargs !! "y" = None -> PNdarray y = empty_array) /\
    (forall v, kwargs !! "x" = Some v -> _ndarrayify v = Ok (PNdarray x)) /\
    (forall v, kwargs !! "y" = Some v -> _ndarrayify v = Ok (PNdarray y)).
Proof.
  unfold __init__.
  destruct (kwargs !! "x") as [vx|] eqn:Hx;
    [destruct (_ndarrayify vx) as [vx'|e] eqn:Hvx; [|discriminate];
     destruct (_ndarrayify_Ok _ _ Hvx) as [ax ->] |];
  rewrite ?bind_Ok_l, __setitem___ndarray, bind_Ok_l by done;
  (destruct (kwargs !! "y") as [vy|] eqn:Hy;
    [destruct (_ndarrayify vy) as [vy'|e] eqn:Hvy; [|discriminate];
     destruct (_ndarrayify_Ok _ _ Hvy) as [ay ->] |]);
  rewrite ?bind_Ok_l, __setitem___ndarray by done; intros [= <-];
  eexists _, _; repeat split; try done; by intros ? [= <-].
Qed.

Lemma __init___invariant kwargs self :
  __init__ kwargs = Ok self -> xy_invariant self.
Proof.
  intros H. apply __init___Ok in H as (x & y & -> & _).
  intros key. split.
  - intros [-> | ->].
    + rewrite lookup_insert_ne by done. rewrite lookup_insert_eq. eauto.
    + rewrite lookup_insert_eq. eauto.
  - intros Hx Hy. rewrite !lookup_insert_ne by done. apply lookup_empty.
Qed.

Lemma constructed_invariant self : constructed self -> xy_invariant self.
Proof.
  induction 1 as [kwargs self Hinit | self key value self' _ IH Hset].
  - by apply __init___invariant in Hinit.
  - by apply (__setitem___preserves self key value).
Qed.

(** C9 does not hold as stated: [VectorXY()] followed by [clear()], which
    the class inherits, is a [VectorXY] a program can hold, and it has
    neither ['x'] nor ['y']. *)
Lemma cleared_VectorXY_has_no_components :
  __init__ ∅ = Ok empty_VectorXY /\
  held (clear empty_VectorXY) /\
  (clear empty_VectorXY !! "x" = None) /\
  (clear empty_VectorXY !! "y" = None) /\
  ~ xy_invariant (clear empty_VectorXY).
Proof.
  split; [reflexivity|]. split.
  - apply held_clear, (held_init ∅). reflexivity.
  - split; [reflexivity|]. split; [reflexivity|].
    intros Hinv. destruct (Hinv "x") as [Hx _].
    destruct Hx as [a Ha]; [by left|]. discriminate.
Qed.

(** C9, amended.  A [VectorXY] written through its constructor and item
    assignment only holds exactly the keys ['x'] and ['y'], each bound to
    an array; the constructor fills a missing component with the empty
    array; item assignment under ['x'] or ['y'] wraps an int or a float
    in a one-element array, turns a list into an array, keeps an array as
    it is and raises [ValueError] for any other value; item assignment and
    item access under any other key raise [KeyError]. *)
Theorem VectorXY_invariant :
  (forall self, constructed self -> xy_invariant self) /\
  (forall kwargs self,
     __init__ kwargs = Ok self ->
     (kwargs !! "x" = None -> self !! "x" = Some empty_array) /\
     (kwargs !! "y" = None -> self !! "y" = Some empty_array)) /\
  __init__ ∅ = Ok (<["y" := empty_array]> (<["x" := empty_array]> ∅)) /\
  (forall self key value,
     key = "x" \/ key = "y" ->
     __setitem__ self key value =
       match value with
       | PInt _ | PFloat _ =>
           Ok (<[key := PNdarray (np_array (PList [value]))]> self)
       | PList _ => Ok (<[key := PNdarray (np_array value)]> self)
       | PNdarray _ => Ok (<[key := value]> self)
       | _ => Raise (Exn ValueError [value])
       end) /\
  (forall self key value,
     key <> "x" -> key <> "y" ->
     __setitem__ self key value = Raise (Exn KeyError [PStr key])) /\
  (forall self key,
     key <> "x" -> key <> "y" ->
     __getitem__ self key = Raise (Exn KeyError [PStr key])) /\
  (forall self key,
     constructed self -> key = "x" \/ key = "y" ->
     exists a, __getitem__ self key = Ok (PNdarray a)).
Proof.
  assert (Hother : forall key, key <> "x" -> key <> "y" -> xy_key key = false).
  { intros key Hx Hy. destruct (xy_key key) eqn:Hk; [|done].
    apply xy_key_spec in Hk. tauto. }
  split; [exact constructed_invariant|].
  split.
  { intros kwargs self Hinit.
    apply __init___Ok in Hinit as (x & y & -> & Hx & Hy & _). split.
    - intros H. rewrite lookup_insert_ne by done.
      rewrite lookup_insert_eq. by rewrite (Hx H).
    - intros H. rewrite lookup_insert_eq. by rewrite (Hy H). }
  split; [reflexivity|].
  split.
  { intros self key value Hkey. apply xy_key_spec in Hkey.
    unfold __setitem__. rewrite Hkey. by destruct value. }
  split.
  { intros self key value Hx Hy. unfold __setitem__.
    by rewrite (Hother key Hx Hy). }
  split.
  { intros self key Hx Hy. unfold __getitem__. by rewrite (Hother key Hx Hy). }
  intros self key Hc Hkey.
  destruct (constructed_invariant self Hc key) as [Hin _].
  destruct (Hin Hkey) as [a Ha]. exists a.
  unfold __getitem__, getitem. apply xy_key_spec in Hkey as Hk. rewrite Hk.
  destruct Hkey as [-> | ->]; simpl; by rewrite Ha.
Qed.

(** ** js_to_json *)

Lemma well_formed_object ms :
  well_formed (JsObject ms) <-> well_formed_members ms.
Proof.
  unfold well_formed_members. induction ms as [|[k v] ms IH]; simpl.
  - split; [constructor | done].
  - simpl in IH. rewrite IH. split.
    + intros (Hk & Hv & Hms). by constructor.
    + intros H. inversion H as [|? ? [Hk Hv] Hms]; subst. done.
Qed.

Lemma js_induction (P : js -> Prop) :
  (forall w, P (JsWord w)) ->
  (forall ms, Forall (fun kv => P (snd kv)) ms -> P (JsObject ms)) ->
  forall v, P v.
Proof.
  intros Hw Ho. fix IH 1. intros [w|ms]; [apply Hw|].
  apply Ho. induction ms as [|[k v] ms IHms]; constructor; [apply IH | apply IHms].
Qed.

Lemma replace_step old new c s :
  starts_with old (c :: s) = false ->
  replace old new (c :: s) = c :: replace old new s.
Proof. unfold replace. simpl. by intros ->. Qed.

Lemma starts_with_head_ne a old c s :
  a <> c -> starts_with (a :: old) (c :: s) = false.
Proof. intros H. simpl. by destruct (Ascii.eqb_spec a c). Qed.

Lemma replace_word a old new w s :
  is_word a = false -> Forall (fun c => is_word c = true) w ->
  replace (a :: old) new (w ++ s) = w ++ replace (a :: old) new s.
Proof.
  intros Ha. induction 1 as [|c w Hc _ IH]; [done|].
  simpl. rewrite replace_step; [by rewrite IH|].
  apply starts_with_head_ne. congruence.
Qed.

Lemma split_no_sep (sep : ascii) (s : list ascii) :
  sep ∉ s -> split sep s = [s].
Proof.
  induction s as [|c s IH]; [done|]. intros Hnot. simpl.
  destruct (Ascii.eqb_spec c sep) as [->|Hne]; [exfalso; apply Hnot; left|].
  rewrite IH; [done|]. intros H. apply Hnot. by right.
Qed.

Lemma split_at_sep (sep : ascii) (a b : list ascii) :
  sep ∉ a -> split sep (a ++ sep :: b) = a :: split sep b.
Proof.
  induction a as [|c a IH]; intros Hnot; simpl.
  - by rewrite Ascii.eqb_refl.
  - destruct (Ascii.eqb_spec c sep) as [->|Hne]; [exfalso; apply Hnot; left|].
    rewrite IH; [done|]. intros H. apply Hnot. by right.
Qed.

Lemma rstrip_keeps chars s d :
  existsb (Ascii.eqb d) chars = false -> rstrip chars (s ++ [d]) = s ++ [d].
Proof.
  intros Hd. induction s as [|c s IH]; simpl; [by rewrite Hd|].
  rewrite IH. by destruct s.
Qed.

Lemma rstrip_drops chars s c :
  existsb (Ascii.eqb c) chars = true ->
  rstrip chars (s ++ [c]) = rstrip chars s.
Proof.
  intros Hc. induction s as [|d s IH]; simpl; [by rewrite Hc|]. by rewrite IH.
Qed.

Lemma join_split_whitespace s :
  join (split_whitespace s) = filter (fun c => is_space c = false) s.
Proof.
  unfold join. induction s as [|c s IH]; [done|].
  simpl split_whitespace. rewrite filter_cons.
  destruct (is_space c) eqn:Hc.
  - rewrite decide_False by done. done.
  - rewrite decide_True by done. destruct s as [|c' s]; [done|].
    destruct (is_space c') eqn:Hc'; [by rewrite <- IH|].
    rewrite <- IH. destruct (split_whitespace (c' :: s)) as [|piece pieces] eqn:Hs; [|done].
    exfalso. simpl in Hs. rewrite Hc' in Hs.
    destruct s as [|c'' s]; [done|]. destruct (is_space c''); [done|].
    by destruct (split_whitespace (c'' :: s)).
Qed.

Lemma is_word_not_space c : is_word c = true -> is_space c = false.
Proof.
  unfold is_word, is_space. destruct (N_of_ascii c) as [|p] eqn:Hn; [done|].
  intros H. apply orb_false_iff. split; apply andb_false_iff;
    rewrite !N.leb_gt, ?N.leb_le in *;
    repeat (apply orb_true_iff in H as [H|H]);
    rewrite ?andb_true_iff, ?N.leb_le, ?N.eqb_eq in H; lia.
Qed.

Lemma filter_word w :
  Forall (fun c => is_word c = true) w ->
  filter (fun c => is_space c = false) w = w.
Proof.
  induction 1 as [|c w Hc _ IH]; [done|].
  rewrite filter_cons, decide_True by (by apply is_word_not_space). by rewrite IH.
Qed.

Lemma sub_words_inside w s :
  Forall (fun c => is_word c = true) w ->
  sub_words true (w ++ s) = w ++ sub_words true s.
Proof. induction 1 as [|c w Hc _ IH]; [done|]. simpl. by rewrite Hc, IH. Qed.

Lemma sub_words_word w s :
  word w -> word_ends s ->
  sub_words false (w ++ s) = dquote :: w ++ dquote :: sub_words false s.
Proof.
  intros [Hne Hw] Hs. destruct Hw as [|c w Hc Hw]; [done|].
  simpl. rewrite Hc. rewrite sub_words_inside by done.
  destruct s as [|d s]; simpl in *; [done | by rewrite Hs].
Qed.

(** A text function followed through a literal: a function [T] on texts
    that maps every token of one rendering to the token of another (given
    that what follows satisfies [F]) maps the rendering of a whole
    literal. *)
Section Transducer.
Variable T : list ascii -> list ascii.
Variables q colon comma q' colon' comma' : list ascii.
Variable F : list ascii -> Prop.

Hypothesis T_open : forall s, T ("{"%char :: s) = "{"%char :: T s.
Hypothesis T_close : forall s, F s -> T ("}"%char :: s) = "}"%char :: T s.
Hypothesis T_key : forall k s, word k ->
  T (q ++ k ++ q ++ colon ++ s) = q' ++ k ++ q' ++ colon' ++ T s.
Hypothesis T_leaf : forall w s, word w -> F s ->
  T (q ++ w ++ q ++ s) = q' ++ w ++ q' ++ T s.
Hypothesis T_comma : forall s, T (comma ++ s) = comma' ++ T s.
Hypothesis F_close : forall s, F ("}"%char :: s).
Hypothesis F_comma : forall k s, word k -> F (comma ++ q ++ k ++ s).

Lemma transduce_members (ms : list (list ascii * js)) :
  Forall (fun kv => well_formed (snd kv) -> forall s, F s ->
            T (render q colon comma (snd kv) ++ s)
            = render q' colon' comma' (snd kv) ++ T s) ms ->
  well_formed_members ms ->
  forall s, F s ->
    T (render_members (render q colon comma) q colon comma ms
       ++ "}"%char :: s)
    = render_members (render q' colon' comma') q' colon' comma' ms
      ++ "}"%char :: T s.
Proof.
  induction 1 as [|[k v] rest Hv _ IH]; intros Hwf s Hs.
  - simpl. by apply T_close.
  - inversion Hwf as [|? ? [Hk Hwv] Hrest]; subst. simpl in *.
    rewrite <- ?app_assoc. rewrite T_key by done.
    rewrite <- ?app_assoc. do 3 f_equal.
    destruct rest as [|[k2 v2] rest].
    + simpl. rewrite Hv; [|done | apply F_close].
      by rewrite T_close.
    + rewrite <- ?app_assoc. rewrite Hv; [|done|].
      * rewrite T_comma. by rewrite IH.
      * simpl. rewrite <- ?app_assoc. apply F_comma.
        by inversion Hrest as [|? ? [? ?] ?].
Qed.

Lemma transduce (v : js) :
  well_formed v -> forall s, F s ->
  T (render q colon comma v ++ s) = render q' colon' comma' v ++ T s.
Proof.
  induction v as [w|ms IH] using js_induction; intros Hwf s Hs.
  - simpl. rewrite <- ?app_assoc. by apply T_leaf.
  - apply well_formed_object in Hwf.
    cbn [render]. cbn [app]. rewrite T_open. f_equal.
    rewrite <- ?app_assoc. cbn [app].
    by apply transduce_members.
Qed.
End Transducer.

Ltac replace_steps :=
  repeat first
    [ rewrite replace_step by reflexivity
    | rewrite replace_word by (reflexivity || assumption) ].

Ltac token_by_token :=
  intros; simpl;
  repeat match goal with H : word _ |- _ => destruct H as [? ?] end;
  by replace_steps.

Lemma replace_newline_source v s :
  well_formed v ->
  replace ["010"%char] [] (source v ++ s) = source v ++ replace ["010"%char] [] s.
Proof.
  intros Hwf. unfold source.
  apply (transduce _ _ _ _ _ _ _ (fun _ => True)); try done; token_by_token.
Qed.

Lemma replace_quote_source v s :
  well_formed v ->
  replace ["'"%char] [] (source v ++ s) = source v ++ replace ["'"%char] [] s.
Proof.
  intros Hwf. unfold source.
  apply (transduce _ _ _ _ _ _ _ (fun _ => True)); try done; token_by_token.
Qed.

Lemma replace_comma_brace_source v s :
  well_formed v ->
  replace [","; "}"]%char ["}"%char] (source v ++ s)
  = source v ++ replace [","; "}"]%char ["}"%char] s.
Proof.
  intros Hwf. unfold source.
  apply (transduce _ _ _ _ _ _ _ (fun _ => True)); try done; token_by_token.
Qed.

Lemma remove_blanks_source v s :
  well_formed v ->
  join (split_whitespace (source v ++ s))
  = compact v ++ join (split_whitespace s).
Proof.
  intros Hwf. rewrite !join_split_whitespace. unfold source, compact.
  apply (transduce (filter (fun c => is_space c = false)) _ _ _ _ _ _
           (fun _ => True)); try done;
    intros; simpl;
    repeat match goal with H : word _ |- _ => destruct H as [? ?] end;
    by rewrite filter_app, filter_word.
Qed.

Lemma sub_words_compact v s :
  well_formed v -> word_ends s ->
  sub_words false (compact v ++ s) = quoted_text v ++ sub_words false s.
Proof.
  intros Hwf Hs. unfold compact, quoted_text.
  apply (transduce _ _ _ _ _ _ _ word_ends); try done.
  - intros k s' Hk. simpl. by rewrite sub_words_word.
  - intros w s' Hw Hs'. simpl. by rewrite sub_words_word.
Qed.

Lemma replace_quotes_word w s :
  word w -> starts_with [dquote] s = false ->
  replace [dquote; dquote] [dquote] (dquote :: w ++ dquote :: s)
  = dquote :: w ++ dquote :: replace [dquote; dquote] [dquote] s.
Proof.
  intros [Hne Hw] Hs. destruct Hw as [|c w Hc Hw]; [done|].
  rewrite replace_step.
  2:{ change (starts_with [dquote] ((c :: w) ++ dquote :: s) = false).
      apply starts_with_head_ne. intros <-. discriminate. }
  f_equal. rewrite replace_word by (reflexivity || by constructor).
  f_equal. by rewrite replace_step.
Qed.

Lemma replace_quotes_quoted v s :
  well_formed v -> no_quote_next s ->
  replace [dquote; dquote] [dquote] (quoted_text v ++ s)
  = quoted_text v ++ replace [dquote; dquote] [dquote] s.
Proof.
  intros Hwf Hs. unfold quoted_text.
  apply (transduce _ _ _ _ _ _ _ no_quote_next); try done.
  - intros k s' Hk. simpl. rewrite replace_quotes_word by done.
    by replace_steps.
  - intros w s' Hw Hs'. simpl. by rewrite replace_quotes_word.
Qed.

Lemma replace_brace_comma_brace_quoted v s :
  well_formed v -> no_comma_brace_next s ->
  replace ["}"; ","; "}"]%char ["}"; "}"]%char (quoted_text v ++ s)
  = quoted_text v ++ replace ["}"; ","; "}"]%char ["}"; "}"]%char s.
Proof.
  intros Hwf Hs. unfold quoted_text.
  apply (transduce _ _ _ _ _ _ _ no_comma_brace_next); try done;
    try token_by_token.
  intros s' Hs'. rewrite replace_step; [done|]. apply Hs'.
Qed.

Lemma is_word_printable c :
  is_word c = true ->
  Ascii.eqb c dquote = false /\ Ascii.eqb c backslash = false /\
  (N_of_ascii c <? 32)%N = false.
Proof.
  intros H. repeat split.
  - destruct (Ascii.eqb_spec c dquote) as [->|]; [discriminate | done].
  - destruct (Ascii.eqb_spec c backslash) as [->|]; [discriminate | done].
  - unfold is_word in H. apply N.ltb_ge.
    repeat (apply orb_true_iff in H as [H|H]);
      rewrite ?andb_true_iff, ?N.leb_le, ?N.eqb_eq in H; lia.
Qed.

Lemma scan_string_word w s :
  Forall (fun c => is_word c = true) w ->
  scan_string (w ++ dquote :: s) = Parsed w s.
Proof.
  induction 1 as [|c w Hc _ IH]; [done|].
  destruct (is_word_printable c Hc) as (H1 & H2 & H3).
  cbn [app scan_string]. by rewrite H1, H2, H3, IH.
Qed.

Lemma skip_ws_quoted_text v s :
  well_formed v -> skip_ws (quoted_text v ++ s) = quoted_text v ++ s.
Proof. by destruct v. Qed.

Lemma parse_members_step fuel k v rest d :
  Forall (fun c => is_word c = true) k ->
  parse_value fuel (quoted_text v ++ rest) = Parsed (quoted v) rest ->
  well_formed v ->
  parse_members (S fuel)
    (dquote :: k ++ dquote :: ":"%char :: quoted_text v ++ rest) d
  = match skip_ws rest with
    | [] => Invalid
    | c' :: rest' =>
        if Ascii.eqb c' "," then
          parse_members fuel (skip_ws rest') (set_member d (k, quoted v))
        else if Ascii.eqb c' "}" then
          Parsed (PDict (set_member d (k, quoted v))) rest'
        else Invalid
    end.
Proof.
  intros Hk Hv Hwf. cbn [parse_members].
  change (negb (Ascii.eqb dquote dquote)) with false. cbv iota.
  rewrite scan_string_word by done.
  change (skip_ws (":"%char :: ?x)) with (":"%char :: x).
  cbv iota. change (negb (Ascii.eqb ":" ":")) with false. cbv iota.
  rewrite skip_ws_quoted_text by done. rewrite Hv. done.
Qed.

Lemma skip_ws_members ms s :
  ms <> [] ->
  skip_ws (render_members quoted_text [dquote] [":"%char] [","%char] ms ++ s)
  = render_members quoted_text [dquote] [":"%char] [","%char] ms ++ s.
Proof. by destruct ms as [|[k v] ms]. Qed.

Lemma render_members_more f q colon comma k v ms :
  ms <> [] ->
  render_members f q colon comma ((k, v) :: ms)
  = q ++ k ++ q ++ colon ++ f v ++ comma ++ render_members f q colon comma ms.
Proof. by destruct ms. Qed.

Lemma render_members_last f q colon comma k v :
  render_members f q colon comma [(k, v)] = q ++ k ++ q ++ colon ++ f v.
Proof. simpl. by rewrite app_nil_r. Qed.

Lemma parse_members_quoted (ms : list (list ascii * js)) :
  Forall (fun kv => well_formed (snd kv) -> forall fuel s,
            (length (quoted_text (snd kv)) < fuel)%nat ->
            parse_value fuel (quoted_text (snd kv) ++ s)
            = Parsed (quoted (snd kv)) s) ms ->
  well_formed_members ms -> ms <> [] ->
  forall fuel s d,
    (length (render_members quoted_text [dquote] [":"%char] [","%char] ms)
     < fuel)%nat ->
    parse_members fuel
      (render_members quoted_text [dquote] [":"%char] [","%char] ms
       ++ "}"%char :: s) d
    = Parsed (PDict (fold_left set_member
                       (map (fun kv => (fst kv, quoted (snd kv))) ms) d)) s.
Proof.
  induction 1 as [|[k v] rest Hv _ IH]; intros Hwf Hne fuel s d Hfuel; [done|].
  inversion Hwf as [|? ? [[Hk1 Hk] Hwv] Hrest]; subst. simpl in Hwv, Hv.
  destruct (decide (rest = [])) as [->|Hrest'].
  - rewrite render_members_last in *.
    rewrite !length_app in Hfuel. cbn [length] in Hfuel.
    destruct fuel as [|fuel]; [lia|].
    cbn [app]. rewrite <- !app_assoc. cbn [app].
    rewrite parse_members_step; [done | done | | done].
    apply Hv; [done | lia].
  - rewrite render_members_more in * by done.
    rewrite !length_app in Hfuel. cbn [length] in Hfuel.
    destruct fuel as [|fuel]; [lia|].
    cbn [app]. rewrite <- !app_assoc. cbn [app]. rewrite <- !app_assoc.
    rewrite parse_members_step; [ | done | | done].
    + cbn [app skip_ws]. change (is_json_space ",") with false. cbv iota.
      change (Ascii.eqb "," ",") with true. cbv iota.
      rewrite skip_ws_members by done.
      rewrite IH; [done | done | done | lia].
    + apply Hv; [done | lia].
Qed.

Lemma parse_value_quoted (v : js) :
  well_formed v -> forall fuel s,
  (length (quoted_text v) < fuel)%nat ->
  parse_value fuel (quoted_text v ++ s) = Parsed (quoted v) s.
Proof.
  induction v as [w|ms IH] using js_induction; intros Hwf fuel s Hfuel.
  - destruct Hwf as [_ Hw]. destruct fuel as [|fuel]; [lia|].
    cbn [quoted_text render app]. rewrite <- app_assoc. cbn [app parse_value].
    change (Ascii.eqb dquote dquote) with true. cbv iota.
    by rewrite scan_string_word.
  - apply well_formed_object in Hwf.
    destruct fuel as [|fuel]; [lia|].
    unfold quoted_text in *. cbn [render] in *. cbn [length] in Hfuel.
    rewrite length_app in Hfuel. cbn [length] in Hfuel.
    cbn [app parse_value].
    change (Ascii.eqb "{" dquote) with false. cbv iota.
    change (Ascii.eqb "{" "{") with true. cbv iota.
    rewrite <- app_assoc. cbn [app].
    destruct (decide (ms = [])) as [->|Hne]; [done|].
    fold quoted_text.
    rewrite skip_ws_members by done.
    pose proof (parse_members_quoted ms IH Hwf Hne fuel s []) as Hp.
    destruct ms as [|[k v] ms]; [done|].
    cbn [render_members app] in Hp |- *.
    change (Ascii.eqb dquote "}") with false. cbv iota.
    apply Hp. fold quoted_text in Hfuel. cbn [render_members app length] in Hfuel |- *. lia.
Qed.

Lemma render_members_chars (f : js -> list ascii) q colon comma ms (P : ascii -> Prop) :
  Forall P q -> Forall P colon -> Forall P comma ->
  Forall (fun kv => Forall P (fst kv) /\ Forall P (f (snd kv))) ms ->
  Forall P (render_members f q colon comma ms).
Proof.
  intros Hq Hcolon Hcomma. induction 1 as [|[k v] rest [Hk Hv] _ IH]; [constructor|].
  simpl in *. repeat (apply Forall_app; split; try done).
  destruct rest; [constructor|]. by apply Forall_app.
Qed.

Lemma source_chars v (P : ascii -> Prop) :
  (forall c, is_word c = true -> P c) ->
  P "{"%char -> P "}"%char -> P ":"%char -> P ","%char -> P " "%char ->
  well_formed v -> Forall P (source v).
Proof.
  intros Hword Ho Hc Hcol Hcom Hsp.
  induction v as [w|ms IH] using js_induction; intros Hwf.
  - destruct Hwf as [_ Hw]. unfold source. simpl. rewrite app_nil_r.
    eapply Forall_impl; [exact Hw | done].
  - apply well_formed_object in Hwf. unfold source. cbn [render].
    constructor; [done|]. apply Forall_app. split; [|by constructor].
    apply render_members_chars; try (by repeat constructor).
    clear -IH Hwf Hword. induction Hwf as [|[k v] rest [[_ Hk] Hv] _ IHwf]; [constructor|].
    inversion IH as [|? ? Hv' Hrest']; subst. constructor; [|by apply IHwf].
    split; [eapply Forall_impl; [exact Hk | done] | by apply Hv'].
Qed.

Lemma source_no_equals v : well_formed v -> "="%char ∉ source v.
Proof.
  intros Hwf Hin.
  pose proof (source_chars v (fun c => c <> "="%char)) as H.
  rewrite Forall_forall in H. eapply H; try done.
  intros c Hc ->. discriminate.
Qed.

Lemma js_to_json_statement name ms :
  "="%char ∉ name -> well_formed_members ms ->
  js_to_json (statement name (JsObject ms)) = Some (Ok (quoted (JsObject ms))).
Proof.
  intros Hname Hms.
  assert (Hwf : well_formed (JsObject ms)) by (by apply well_formed_object).
  set (v := JsObject ms) in *.
  unfold js_to_json, statement.
  change (name ++ list_ascii_of_string " = " ++ source v ++ [";"%char])
    with (name ++ " "%char :: "="%char :: " "%char :: source v ++ [";"%char]).
  replace (name ++ " "%char :: "="%char :: " "%char :: source v ++ [";"%char])
    with ((name ++ [" "%char]) ++ "="%char :: " "%char :: source v ++ [";"%char])
    by (by rewrite <- app_assoc).
  rewrite split_at_sep.
  2:{ rewrite elem_of_app. intros [H|H]; [done|].
      apply list_elem_of_singleton in H. discriminate. }
  rewrite split_no_sep.
  2:{ rewrite elem_of_cons, elem_of_app. intros [H|[H|H]]; [discriminate| |].
      - by apply (source_no_equals v).
      - apply list_elem_of_singleton in H. discriminate. }
  rewrite (replace_step _ _ " "%char) by reflexivity.
  rewrite replace_newline_source by done.
  rewrite (replace_step _ _ ";"%char) by reflexivity.
  change (replace ["010"%char] [] []) with (@nil ascii).
  rewrite (replace_step _ _ " "%char) by reflexivity.
  rewrite replace_quote_source by done.
  rewrite (replace_step _ _ ";"%char) by reflexivity.
  change (replace ["'"%char] [] []) with (@nil ascii).
  rewrite (replace_step _ _ " "%char) by reflexivity.
  rewrite replace_comma_brace_source by done.
  rewrite (replace_step _ _ ";"%char) by reflexivity.
  change (replace [","%char; "}"%char] ["}"%char] []) with (@nil ascii).
  change (" "%char :: source v ++ [";"%char])
    with ((" "%char :: source v) ++ [";"%char]).
  rewrite rstrip_drops by reflexivity.
  assert (Hends : exists body, " "%char :: source v = body ++ ["}"%char]).
  { unfold v, source. cbn [render]. eexists (_ :: _ :: _). reflexivity. }
  destruct Hends as [body Hbody]. rewrite Hbody.
  rewrite rstrip_keeps by reflexivity. rewrite <- Hbody.
  rewrite join_split_whitespace, filter_cons, decide_False by done.
  rewrite <- join_split_whitespace.
  rewrite <- (app_nil_r (source v)), remove_blanks_source by done.
  change (join (split_whitespace [])) with (@nil ascii).
  rewrite sub_words_compact by done.
  change (sub_words false []) with (@nil ascii).
  rewrite replace_quotes_quoted by done.
  change (replace [dquote; dquote] [dquote] []) with (@nil ascii).
  rewrite replace_brace_comma_brace_quoted by done.
  change (replace ["}"%char; ","%char; "}"%char] ["}"%char; "}"%char] [])
    with (@nil ascii).
  unfold json_loads. rewrite skip_ws_quoted_text by done.
  rewrite parse_value_quoted; [done | done |].
  rewrite app_nil_r. lia.
Qed.

Lemma strings_only_dict items :
  strings_only (PDict items) <-> Forall (fun kx => strings_only (snd kx)) items.
Proof.
  induction items as [|[k x] items IH]; simpl.
  - split; [constructor | done].
  - simpl in IH. rewrite IH. split.
    + intros [Hx Hr]. by constructor.
    + intros H. by inversion H.
Qed.

Lemma dict_set_values (P : pyval -> Prop) key value d :
  P value -> Forall (fun kx => P (snd kx)) d ->
  Forall (fun kx => P (snd kx)) (dict_set key value d).
Proof.
  intros Hv. induction 1 as [|[k x] d Hx Hd IH]; simpl.
  - by repeat constructor.
  - destruct (String.eqb k key); by constructor.
Qed.

Lemma dict_set_key key value d :
  exists x, (key, x) ∈ dict_set key value d.
Proof.
  induction d as [|[k x] d [y IH]]; simpl.
  - eexists. left.
  - destruct (String.eqb_spec k key) as [->|Hne].
    + eexists. left.
    + eexists. right. exact IH.
Qed.

Lemma dict_set_keeps_key key value k x d :
  (k, x) ∈ d -> exists y, (k, y) ∈ dict_set key value d.
Proof.
  induction d as [|[k' x'] d IH]; [by intros ?%elem_of_nil|].
  intros [[= -> ->]|Hin]%elem_of_cons; simpl.
  - destruct (String.eqb k' key); eexists; left.
  - destruct (IH Hin) as [y Hy]. destruct (String.eqb k' key).
    + exists x. by right.
    + exists y. by right.
Qed.

Lemma fold_set_member_values (P : pyval -> Prop) kvs : forall d,
  Forall (fun kv => P (snd kv)) kvs -> Forall (fun kx => P (snd kx)) d ->
  Forall (fun kx => P (snd kx)) (fold_left set_member kvs d).
Proof.
  induction kvs as [|kv kvs IH]; intros d Hkvs Hd; [done|].
  inversion Hkvs; subst. simpl. apply IH; [done|].
  by apply dict_set_values.
Qed.

Lemma fold_set_member_keeps kvs : forall d k x,
  (k, x) ∈ d -> exists y, (k, y) ∈ fold_left set_member kvs d.
Proof.
  induction kvs as [|kv kvs IH]; intros d k x Hin; [eauto|].
  simpl. destruct (dict_set_keeps_key (string_of_list_ascii (fst kv)) (snd kv) k x d Hin)
    as [y Hy]. by apply (IH _ k y).
Qed.

Lemma fold_set_member_keys kvs : forall d kv,
  kv ∈ kvs ->
  exists y, (string_of_list_ascii (fst kv), y) ∈ fold_left set_member kvs d.
Proof.
  induction kvs as [|kv' kvs IH]; intros d kv Hin; [by apply elem_of_nil in Hin|].
  apply elem_of_cons in Hin as [->|Hin]; simpl.
  - destruct (dict_set_key (string_of_list_ascii (fst kv')) (snd kv') d) as [x Hx].
    by apply (fold_set_member_keeps _ _ _ x).
  - by apply IH.
Qed.

Lemma quoted_strings_only v : strings_only (quoted v).
Proof.
  induction v as [w|ms IH] using js_induction; [done|].
  cbn [quoted]. apply strings_only_dict.
  apply (fold_set_member_values strings_only); [|constructor].
  induction IH as [|[k v] ms Hv _ IHms]; by constructor.
Qed.

(** C10. For a statement [name = {key: value, ...};] whose keys and values
    are words, [js_to_json] returns a mapping that has every key of the
    literal and binds each key to a string; with nested literals every
    leaf is a string.  The default [1] of a manifest file is returned as
    the string ["1"], where [json.loads] reads the number from JSON text. *)
Theorem js_to_json_values_are_strings :
  (forall name members,
     "="%char ∉ name ->
     Forall (fun kv => word (fst kv) /\ word (snd kv)) members ->
     exists items,
       js_to_json (statement name (flat members)) = Some (Ok (PDict items)) /\
       Forall (fun kx => exists w, snd kx = PStr w) items /\
       forall kv, kv ∈ members ->
         exists w, (string_of_list_ascii (fst kv), PStr w) ∈ items) /\
  (forall name members,
     "="%char ∉ name -> well_formed_members members ->
     js_to_json (statement name (JsObject members))
       = Some (Ok (quoted (JsObject members))) /\
     strings_only (quoted (JsObject members))) /\
  get_parameter_manifest manifest_file
    = Some (Ok (PDict
         [("SINE",
           PDict [("frequency", PDict [("default", PStr "1")]);
                  ("amplitude", PDict [("default", PStr "1")])])])) /\
  json_loads default_one_json = Some (Ok (PDict [("default", PInt 1)])).
Proof.
  split; [|split; [|split; vm_compute; reflexivity]].
  - intros name members Hname Hwf.
    assert (Hms : well_formed_members
                    (map (fun kv => (fst kv, JsWord (snd kv))) members)).
    { unfold well_formed_members. rewrite Forall_map.
      eapply Forall_impl; [exact Hwf|]. by intros [k w]. }
    eexists. split; [by apply js_to_json_statement|]. split.
    + apply (fold_set_member_values (fun x => exists w, x = PStr w)); [|constructor].
      rewrite !Forall_map. apply Forall_true. intros [k w]. simpl. eauto.
    + intros kv Hin.
      destruct (fold_set_member_keys
                  (map (fun kv => (fst kv, quoted (snd kv)))
                     (map (fun kv => (fst kv, JsWord (snd kv))) members))
                  [] (fst kv, PStr (string_of_list_ascii (snd kv)))) as [y Hy].
      { rewrite <- list_fmap_compose. apply list_elem_of_fmap. by exists kv. }
      simpl in Hy.
      assert (Hall : Forall (fun kx => exists w, snd kx = PStr w)
                (fold_left set_member
                   (map (fun kv => (fst kv, quoted (snd kv)))
                      (map (fun kv => (fst kv, JsWord (snd kv))) members)) [])).
      { apply (fold_set_member_values (fun x => exists w, x = PStr w)); [|constructor].
        rewrite !Forall_map. apply Forall_true. intros [k w]. simpl. eauto. }
      rewrite Forall_forall in Hall. destruct (Hall _ Hy) as [w Hw].
      simpl in Hw. subst y. by exists w.
  - intros name members Hname Hwf. split; [by apply js_to_json_statement|].
    apply quoted_strings_only.
Qed.

(** ** fetch_inputs *)

Lemma fetch_loop_stops (store : job_store) before ea after results e :
  Forall2 (fun id r => store id = Ok r) before results ->
  store ea = Raise e ->
  forall inputs,
    fetch_loop store (before ++ ea :: after) inputs = (inputs ++ results, Some e).
Proof.
  intros Hbefore Hea.
  induction Hbefore as [|id r ids rs Hid _ IH]; intros inputs; simpl.
  - rewrite Hea. by rewrite app_nil_r.
  - rewrite Hid. rewrite IH. by rewrite <- app_assoc.
Qed.

(** C2 does not hold as stated: with job ["a"] stored and the fetch of job
    ["b"] failing, [fetch_inputs] returns the result of ["a"], not the empty
    list. *)
Lemma fetch_inputs_keeps_fetched_results :
  store_with_a "b" = Raise connection_error /\
  fetch_inputs store_with_a ["a"; "b"] (PBool false)
    = (Ok [Plain (PInt 42)], [PrintTraceback connection_error]) /\
  [Plain (PInt 42)] <> @nil pyobj.
Proof. repeat split. discriminate. Qed.

(** C2, amended.  When the fetch of a predecessor raises, [fetch_inputs]
    prints the traceback and returns, without raising, the results of the
    predecessors fetched before the failing one (the empty list when the
    first fetch fails); [inner] then calls the decorated function with
    that list. *)
Theorem fetch_failure_is_swallowed
    (store : job_store) (before : list string) (ea : string)
    (after : list string) (results : list pyobj) (e : exn) (mock : pyval) :
  is_True mock = false ->
  Forall2 (fun id r => store id = Ok r) before results ->
  store ea = Raise e ->
  fetch_inputs store (before ++ ea :: after) mock
    = (Ok results, [PrintTraceback e]) /\
  (before = [] -> results = []) /\
  forall env func func_params,
    redis env = store ->
    func_params_of env (__name__ func) = Some (Ok func_params) ->
    inner env func (before ++ ea :: after) mock
      = Some ([PrintTraceback e;
               PrintExecuting (__name__ func) (before ++ ea :: after)],
              call func results func_params).
Proof.
  intros Hmock Hbefore Hea.
  assert (Hfetch : fetch_inputs store (before ++ ea :: after) mock
                   = (Ok results, [PrintTraceback e])).
  { unfold fetch_inputs. rewrite Hmock.
    by rewrite (fetch_loop_stops store before ea after results e Hbefore Hea). }
  split; [done|]. split.
  - intros ->. by inversion Hbefore.
  - intros env func func_params Hstore Hparams.
    unfold inner. rewrite Hparams. simpl. rewrite Hstore, Hfetch. done.
Qed.

(** C2, amended, at a store that holds job ["a"] only. *)
Lemma fetch_failure_is_swallowed_witness :
  fetch_inputs store_with_a (["a"] ++ "b" :: ["c"]) (PBool false)
    = (Ok [Plain (PInt 42)], [PrintTraceback connection_error]).
Proof.
  apply (fetch_failure_is_swallowed store_with_a ["a"] "b" ["c"]
           [Plain (PInt 42)] connection_error (PBool false)).
  - reflexivity.
  - repeat constructor.
  - reflexivity.
Defined.

(** ** The decorator *)

Lemma fill_loop_lookup (default_params func_params : gmap string pyval) key :
  fill_loop default_params func_params !! key =
  match func_params !! key with
  | Some v => Some v
  | None => default_params !! key
  end.
Proof.
  unfold fill_loop.
  apply (map_fold_weak_ind (fun r (m : gmap string pyval) =>
    r !! key = match func_params !! key with
               | Some v => Some v | None => m !! key end)).
  - rewrite lookup_empty. by destruct (func_params !! key).
  - intros i x m r Hi IH.
    destruct (r !! i) as [w|] eqn:Hri.
    + rewrite IH. destruct (func_params !! key) eqn:Hf; [done|].
      destruct (decide (i = key)) as [->|Hne].
      * congruence.
      * by rewrite lookup_insert_ne.
    + destruct (decide (i = key)) as [->|Hne].
      * rewrite lookup_insert_eq. rewrite Hri in IH.
        destruct (func_params !! key); [done|]. by rewrite lookup_insert_eq.
      * rewrite !lookup_insert_ne by done. apply IH.
Qed.

Lemma default_params_loop_Ok (pmFN : gmap string (gmap string pyval)) :
  (forall param attrs, pmFN !! param = Some attrs -> is_Some (attrs !! "default")) ->
  exists default_params,
    default_params_loop pmFN = Ok default_params /\
    forall param, default_params !! param = pmFN !! param ≫= (fun attrs => attrs !! "default").
Proof.
  unfold default_params_loop.
  apply (map_fold_weak_ind (fun r (m : gmap string (gmap string pyval)) =>
    (forall param attrs, m !! param = Some attrs -> is_Some (attrs !! "default")) ->
    exists default_params, r = Ok default_params /\
      forall param, default_params !! param = m !! param ≫= (fun attrs => attrs !! "default"))).
  - intros _. exists ∅. split; [done|]. intros param. by rewrite !lookup_empty.
  - intros i x m r Hi IH Hall.
    destruct IH as (dp & -> & Hdp).
    { intros param attrs Hp. apply (Hall param).
      rewrite lookup_insert_ne; [done|]. intros ->. congruence. }
    destruct (Hall i x) as [d Hd]; [by rewrite lookup_insert_eq|].
    exists (<[i:=d]> dp). split.
    + simpl. unfold getitem. rewrite Hd. done.
    + intros param. destruct (decide (i = param)) as [->|Hne].
      * rewrite !lookup_insert_eq. simpl. done.
      * rewrite !lookup_insert_ne by done. apply Hdp.
Qed.

Lemma get_state_SINE :
  get_state SINE_panel = Ok {[ "SINE" := {[ "frequency" := PInt 5 ]} ]}.
Proof. vm_compute. reflexivity. Qed.

Lemma parameter_manifest_SINE store :
  parameter_manifest (SINE_environment store) = Some (Ok SINE_manifest).
Proof. vm_compute. reflexivity. Qed.

Lemma func_params_SINE store :
  func_params_of (SINE_environment store) "SINE" =
  Some (Ok {[ "frequency" := PInt 5; "amplitude" := PStr "1" ]}).
Proof. vm_compute. reflexivity. Qed.

Lemma fetch_inputs_Ok store previous_job_ids mock :
  exists node_inputs, fst (fetch_inputs store previous_job_ids mock) = Ok node_inputs.
Proof.
  unfold fetch_inputs. destruct (is_True mock).
  - vm_compute. eauto.
  - destruct (fetch_loop store previous_job_ids []) as [inputs [e|]]; simpl; eauto.
Qed.

(** C1 does not hold as stated: with the manifest file
    [{SINE: {frequency: {default: 1}, amplitude: {default: 1}}}] and the
    user state [{SINE: {frequency: 5}}], [inner] calls the function with
    amplitude ['1'], a string, and not with [{frequency: 5, amplitude: 1}]. *)
Lemma inner_SINE_amplitude_is_a_string :
  parameter_manifest (SINE_environment empty_store) = Some (Ok SINE_manifest) /\
  get_state SINE_panel = Ok {[ "SINE" := {[ "frequency" := PInt 5 ]} ]} /\
  (exists node_inputs out,
     inner (SINE_environment empty_store) SINE [] (PBool true)
     = Some (out, call SINE node_inputs
                    {[ "frequency" := PInt 5; "amplitude" := PStr "1" ]})) /\
  func_params_of (SINE_environment empty_store) "SINE"
  <> Some (Ok {[ "frequency" := PInt 5; "amplitude" := PInt 1 ]}).
Proof.
  split; [apply parameter_manifest_SINE|]. split; [apply get_state_SINE|].
  split.
  - unfold inner. rewrite func_params_SINE. simpl.
    destruct (fetch_inputs_Ok empty_store [] (PBool true)) as [inputs Hin].
    destruct (fetch_inputs empty_store [] (PBool true)) as [r out].
    simpl in Hin. subst r. eauto.
  - rewrite func_params_SINE. intros H.
    apply (f_equal (fun r : option (result (gmap string pyval)) =>
                      match r with
                      | Some (Ok func_params) => func_params !! "amplitude"
                      | _ => None
                      end)) in H.
    vm_compute in H. discriminate.
Qed.

(** C1, amended.  Parameter resolution of the decorator.  For a manifest
    file from which [get_parameter_manifest] reads an entry for the
    function, each parameter of which carries a ['default'], and for the
    user state [get_state] returns: [inner] calls the function with a
    parameter mapping in which every parameter of the manifest entry is
    present, a parameter the user state gives for the function keeps the
    user's value, and a manifest parameter absent from the user state has
    its manifest default.  In particular the manifest file
    [{SINE: {frequency: {default: 1}, amplitude: {default: 1}}}] with the
    user state [{SINE: {frequency: 5}}] resolves to frequency 5 and
    amplitude ['1'], the default as the string the reader returns. *)
Theorem inner_resolves_parameters :
  (forall env func previous_job_ids mock pm pmFN user_set_parameters,
     parameter_manifest env = Some (Ok pm) ->
     pm !! __name__ func = Some pmFN ->
     (forall param attrs,
        pmFN !! param = Some attrs -> is_Some (attrs !! "default")) ->
     get_state (panel_elements env) = Ok user_set_parameters ->
     exists func_params node_inputs out,
       inner env func previous_job_ids mock
         = Some (out, call func node_inputs func_params) /\
       (forall param, is_Some (pmFN !! param) -> is_Some (func_params !! param)) /\
       (forall user param v,
          user_set_parameters !! __name__ func = Some user ->
          user !! param = Some v -> func_params !! param = Some v) /\
       (forall param attrs d,
          pmFN !! param = Some attrs -> attrs !! "default" = Some d ->
          (forall user, user_set_parameters !! __name__ func = Some user ->
                        user !! param = None) ->
          func_params !! param = Some d)) /\
  (forall store,
     parameter_manifest (SINE_environment store) = Some (Ok SINE_manifest) /\
     get_state SINE_panel = Ok {[ "SINE" := {[ "frequency" := PInt 5 ]} ]} /\
     func_params_of (SINE_environment store) "SINE"
       = Some (Ok {[ "frequency" := PInt 5; "amplitude" := PStr "1" ]})).
Proof.
  split;
    [| intros store; split;
       [apply parameter_manifest_SINE
       | split; [apply get_state_SINE | apply func_params_SINE]]].
  intros env func previous_job_ids mock pm pmFN user Hread Hpm Hdef Hstate.
  destruct (default_params_loop_Ok pmFN Hdef) as (dp & Hloop & Hdp).
  set (fp0 := match user !! __name__ func with Some p => p | None => dp end).
  destruct (fetch_inputs_Ok (redis env) previous_job_ids mock) as [inputs Hin].
  exists (fill_loop dp fp0), inputs.
  destruct (fetch_inputs (redis env) previous_job_ids mock) as [r out] eqn:Hfetch.
  simpl in Hin. subst r.
  exists (out ++ [PrintExecuting (__name__ func) previous_job_ids]).
  split; [| split; [| split]].
  - unfold inner, func_params_of, getitem. rewrite Hread. simpl.
    rewrite Hpm. simpl. rewrite Hloop. simpl. rewrite Hstate. simpl.
    fold fp0. rewrite Hfetch. done.
  - intros param [attrs Hp]. rewrite fill_loop_lookup.
    destruct (fp0 !! param); [eauto|]. rewrite Hdp, Hp. simpl. eauto.
  - intros u param v Hu Hv. rewrite fill_loop_lookup.
    unfold fp0. rewrite Hu, Hv. done.
  - intros param attrs d Hp Hd Habs. rewrite fill_loop_lookup.
    unfold fp0. destruct (user !! __name__ func) as [u|] eqn:Hu.
    + rewrite (Habs u eq_refl). rewrite Hdp, Hp. simpl. done.
    + rewrite Hdp, Hp. simpl. by rewrite Hd.
Qed.

(** C1, amended, at the [SINE] manifest file and panel: the hypotheses hold
    there, and the function is called with frequency 5 and amplitude
    ['1']. *)
Lemma inner_resolves_parameters_witness :
  exists func_params node_inputs out,
    inner (SINE_environment empty_store) SINE [] (PBool true)
      = Some (out, call SINE node_inputs func_params) /\
    func_params !! "frequency" = Some (PInt 5) /\
    func_params !! "amplitude" = Some (PStr "1").
Proof.
  destruct (proj1 inner_resolves_parameters (SINE_environment empty_store) SINE
              [] (PBool true) SINE_manifest
              {[ "frequency" := {[ "default" := PStr "1" ]};
                 "amplitude" := {[ "default" := PStr "1" ]} ]}
              {[ "SINE" := {[ "frequency" := PInt 5 ]} ]})
    as (func_params & node_inputs & out & Hcall & _ & Huser & Hdefault).
  - vm_compute. reflexivity.
  - reflexivity.
  - apply map_Forall_insert_2; [by eexists|].
    apply map_Forall_singleton. by eexists.
  - vm_compute. reflexivity.
  - exists func_params, node_inputs, out. split; [exact Hcall|]. split.
    + apply (Huser {[ "frequency" := PInt 5 ]}); reflexivity.
    + apply (Hdefault "amplitude" {[ "default" := PStr "1" ]}); [reflexivity..|].
      intros user [= <-]. reflexivity.
Defined.

(** ** The worker *)

Lemma under_death_penalty_outcome p body w :
  snd (under_death_penalty p body w) = outcome body.
Proof. reflexivity. Qed.

Lemma elapse_frame dt w :
  job (elapse dt w) = job w /\ executed (elapse dt w) = executed w /\
  log (elapse dt w) = log w /\ handled (elapse dt w) = handled w /\
  clock (elapse dt w) = clock w + dt.
Proof.
  unfold elapse. destruct (penalty w) as [p|]; [|done].
  destruct (_timer p) as [t|]; [|done]. by destruct (Timer_run t _).
Qed.

Lemma under_death_penalty_frame p body w :
  let w' := fst (under_death_penalty p body w) in
  job w' = job w /\ executed w' = executed w /\ log w' = log w /\
  handled w' = handled w.
Proof.
  unfold under_death_penalty. simpl.
  set (w1 := set_penalty _ w).
  destruct (elapse_frame (duration body) w1) as (Hj & He & Hl & Hh & _).
  destruct (penalty (elapse (duration body) w1)); simpl; by rewrite ?Hj, ?He, ?Hl, ?Hh.
Qed.

Lemma try_block_cases cfg body w :
  let w1 := fst (under_death_penalty
                   (WindowsSignalDeathPenalty__init__
                      (timeout_or_default (job w) cfg) JobTimeoutException (id (job w)))
                   body (set_job (with_started_at (clock w) (job w)) w)) in
  match outcome body with
  | Raise e => try_block cfg body w = (w1, Raise e)
  | Ok rv =>
      let j := finished_job rv (clock w) (clock w1) (job w) in
      try_block cfg body w
      = with_value rv (handle_job_success cfg (set_job j w1))
  end.
Proof.
  cbv zeta. unfold try_block. cbv zeta.
  set (p := WindowsSignalDeathPenalty__init__ _ _ _).
  change (job (set_job (with_started_at (clock w) (job w)) w))
    with (with_started_at (clock w) (job w)).
  change (timeout_or_default (with_started_at (clock w) (job w)) cfg)
    with (timeout_or_default (job w) cfg).
  change (id (with_started_at (clock w) (job w))) with (id (job w)).
  set (w0 := set_job _ w).
  pose proof (under_death_penalty_frame p body w0) as Hf.
  pose proof (under_death_penalty_outcome p body w0) as Ho.
  destruct (under_death_penalty p body w0) as [w1 r].
  simpl in Hf, Ho. subst r. destruct Hf as (Hj & _).
  destruct (outcome body) as [rv|e]; [|done].
  simpl. rewrite Hj. simpl.
  unfold finished_job, with_value.
  by destruct (handle_job_success cfg _) as [w2 [ttl|e]].
Qed.

Lemma perform_job_cases cfg body w :
  match try_block cfg body (prepare_job_execution w) with
  | (w1, Raise e) => perform_job cfg body w = (failed e w1, false)
  | (w1, Ok (rv, ttl)) =>
      perform_job cfg body w =
        (log_message (fst (ttl_message ttl)) (snd (ttl_message ttl))
           (log_message INFO (ok_message rv) w1), true)
  end.
Proof.
  unfold perform_job.
  destruct (try_block cfg body (prepare_job_execution w)) as [w1 [[rv ttl]|e]].
  - unfold ttl_message, ok_message.
    destruct (is_None rv); destruct (ttl =? 0); [done| |done|];
      by destruct (ttl >? 0).
  - done.
Qed.

Lemma queued_Ok cfg j ttl pipeline :
  queued cfg j = Ok (ttl, pipeline) ->
  ttl = get_result_ttl j (default_result_ttl cfg) /\
  pipeline = [EnqueueDependents (id j); SetCurrentJobId None;
              IncrementSuccessfulJobCount]
             ++ saved_commands ttl j ++ [Cleanup (id j) ttl].
Proof.
  unfold queued, called, saved_commands.
  destruct (faults cfg call_enqueue_dependents); [discriminate|].
  destruct (faults cfg call_set_current_job_id); [discriminate|].
  destruct (faults cfg call_increment_successful_job_count); [discriminate|].
  simpl. destruct (get_result_ttl j (default_result_ttl cfg) =? 0) eqn:Httl; simpl.
  - destruct (faults cfg call_cleanup); [discriminate|].
    simpl. intros [= <- <-]. by rewrite Httl.
  - destruct (faults cfg call_save); [discriminate|].
    destruct (faults cfg call_cleanup); [discriminate|].
    simpl. intros [= <- <-]. by rewrite Httl.
Qed.

Lemma queued_no_fault cfg j :
  (forall c, faults cfg c = None) ->
  exists ttl pipeline, queued cfg j = Ok (ttl, pipeline).
Proof.
  intros H. unfold queued, called. rewrite !H. simpl.
  destruct (get_result_ttl j (default_result_ttl cfg) =? 0); simpl; eauto.
Qed.

(** The ways the block taken from [handle_job_success] ends. *)
Lemma handle_job_success_cases cfg w :
  let ww := send [Watch (id (job w))] w in
  match faults cfg call_watch with
  | Some e => handle_job_success cfg w = (w, Raise e)
  | None =>
      match queued cfg (job w) with
      | Raise e => handle_job_success cfg w = (ww, Raise e)
      | Ok (ttl, pipeline) =>
          let wc := set_job (cleanup ttl (executed ww) (job w)) ww in
          match faults cfg call_execute with
          | Some e => handle_job_success cfg w = (wc, Raise e)
          | None => handle_job_success cfg w = (send pipeline wc, Ok ttl)
          end
      end
  end.
Proof.
  cbv zeta. unfold handle_job_success, called.
  destruct (faults cfg call_watch); [done|].
  change (job (send [Watch (id (job w))] w)) with (job w).
  destruct (queued cfg (job w)) as [[ttl pipeline]|e]; [|done].
  by destruct (faults cfg call_execute).
Qed.

Lemma cleanup_kept ttl sent j : ttl <> 0 -> cleanup ttl sent j = j.
Proof.
  intros H. unfold cleanup. by destruct (Z.eqb_spec ttl 0).
Qed.

Lemma after_body_frame cfg body w :
  let w0 := prepare_job_execution w in
  let w1 := after_body cfg body w in
  job w1 = with_started_at (clock w) (with__status (Some STARTED) (job w)) /\
  executed w1 = executed w0 /\ log w1 = log w /\ handled w1 = handled w.
Proof.
  cbv zeta. unfold after_body.
  set (p := WindowsSignalDeathPenalty__init__ _ _ _).
  set (ws := set_job _ _).
  by destruct (under_death_penalty_frame p body ws) as (-> & -> & -> & ->).
Qed.

(** The paths through [perform_job]: the function raises; [watch] fails;
    a call that queues on the pipeline fails; [execute] fails; or all goes
    well. *)
Lemma perform_job_paths cfg body w :
  let w1 := after_body cfg body w in
  match outcome body with
  | Raise e => perform_job cfg body w = (failed e w1, false)
  | Ok rv =>
      let j := finished_job rv (clock w) (clock w1) (job w1) in
      let wj := set_job j w1 in
      match faults cfg call_watch with
      | Some e => perform_job cfg body w = (failed e wj, false)
      | None =>
          let ww := send [Watch (id j)] wj in
          match queued cfg j with
          | Raise e => perform_job cfg body w = (failed e ww, false)
          | Ok (ttl, pipeline) =>
              let wc := set_job (cleanup ttl (executed ww) j) ww in
              match faults cfg call_execute with
              | Some e => perform_job cfg body w = (failed e wc, false)
              | None =>
                  perform_job cfg body w =
                  (log_message (fst (ttl_message ttl)) (snd (ttl_message ttl))
                     (log_message INFO (ok_message rv) (send pipeline wc)),
                   true)
              end
          end
      end
  end.
Proof.
  cbv zeta.
  pose proof (perform_job_cases cfg body w) as Hcases.
  pose proof (try_block_cases cfg body (prepare_job_execution w)) as Htry.
  cbv zeta in Htry.
  change (timeout_or_default (job (prepare_job_execution w)) cfg)
    with (timeout_or_default (job w) cfg) in Htry.
  change (id (job (prepare_job_execution w))) with (id (job w)) in Htry.
  fold (after_body cfg body w) in Htry.
  destruct (after_body_frame cfg body w) as (Hj & _).
  set (w1 := after_body cfg body w) in *.
  destruct (outcome body) as [rv|e].
  2:{ rewrite Htry in Hcases. exact Hcases. }
  assert (Hjob : finished_job rv (clock (prepare_job_execution w)) (clock w1)
                   (job (prepare_job_execution w))
                 = finished_job rv (clock w) (clock w1) (job w1)).
  { rewrite Hj. reflexivity. }
  rewrite Hjob in Htry. set (j := finished_job rv (clock w) _ _) in *.
  pose proof (handle_job_success_cases cfg (set_job j w1)) as Hs.
  cbv zeta in Hs. change (job (set_job j w1)) with j in Hs.
  rewrite Htry in Hcases. unfold with_value in Hcases.
  destruct (faults cfg call_watch);
    [rewrite Hs in Hcases; exact Hcases|].
  destruct (queued cfg j) as [[ttl pipeline]|e];
    [|rewrite Hs in Hcases; exact Hcases].
  destruct (faults cfg call_execute); rewrite Hs in Hcases; exact Hcases.
Qed.

(** C3. On the success path of [perform_job] exactly one of three branches
    is taken on the resolved result TTL: at 0 the job is not saved and
    [Result discarded immediately.] is logged at level INFO; above 0 the
    job is saved and the retention message is logged at level INFO; below 0
    the job is saved and the never-expire message is logged at level
    WARNING. *)
Theorem result_ttl_branches (cfg : WorkerConfig) (body : JobBody) (w : World) :
  snd (perform_job cfg body w) = true ->
  let w' := fst (perform_job cfg body w) in
  let ttl := get_result_ttl (job w) (default_result_ttl cfg) in
  exists (ok_msg : string) (saved : list command) (ttl_msg : level * string),
    executed w' =
      executed (prepare_job_execution w)
      ++ [Watch (id (job w)); EnqueueDependents (id (job w));
          SetCurrentJobId None; IncrementSuccessfulJobCount]
      ++ saved ++ [Cleanup (id (job w)) ttl] /\
    log w' = log w ++ [(INFO, ok_msg); ttl_msg] /\
    (ttl = 0 /\ saved = [] /\
       ttl_msg = (INFO, "Result discarded immediately.")
     \/ ttl > 0 /\ saved = [Save (job w')] /\
       ttl_msg = (INFO, "Result is kept for " +:+ pretty ttl +:+ " seconds.")
     \/ ttl < 0 /\ saved = [Save (job w')] /\
       ttl_msg = (WARNING,
                  "Result will never expire, clean up result key manually.")).
Proof.
  intros Hok w' ttl. subst w'.
  pose proof (perform_job_paths cfg body w) as Hpaths. cbv zeta in Hpaths.
  destruct (after_body_frame cfg body w) as (Hj & He & Hl & Hh).
  set (w1 := after_body cfg body w) in *.
  destruct (outcome body) as [rv|e];
    [|rewrite Hpaths in Hok; discriminate].
  set (j := finished_job rv _ _ _) in Hpaths.
  destruct (faults cfg call_watch);
    [rewrite Hpaths in Hok; discriminate|].
  destruct (queued cfg j) as [[ttl' pipeline]|e] eqn:Hq;
    [|rewrite Hpaths in Hok; discriminate].
  destruct (faults cfg call_execute);
    [rewrite Hpaths in Hok; discriminate|].
  rewrite Hpaths. simpl.
  apply queued_Ok in Hq as [Httl ->].
  assert (id j = id (job w)) as Hid by (subst j; by rewrite Hj).
  assert (ttl' = ttl) as -> by (subst j ttl; by rewrite Httl, Hj).
  exists (ok_message rv), (saved_commands ttl j), (ttl_message ttl).
  rewrite Hid. simpl in He.
  split; [rewrite Hj, He; simpl; rewrite <- !app_assoc; reflexivity | split].
  { rewrite Hl. simpl. rewrite <- app_assoc. simpl. by destruct (ttl_message ttl). }
  unfold saved_commands, ttl_message.
  destruct (Z.eqb_spec ttl 0) as [H0|H0]; [by left|].
  rewrite (cleanup_kept ttl _ j H0).
  destruct (Z.gtb_spec ttl 0) as [Hpos|Hneg]; [right; left | right; right];
    (split; [lia | done]).
Qed.

(** C4 at a job whose function raises: [perform_job] returns False and
    calls [handle_exception] with the exception, but the status is not
    set to FAILED: [job.status = FAILED] binds an attribute that RQ does
    not read, [_status] stays STARTED, and Redis, which has received the
    commands of [prepare_job_execution] only, holds STARTED for the job. *)
Lemma failure_is_not_recorded :
  let w' := fst (perform_job no_faults raising_body (idle_world queued_job)) in
  snd (perform_job no_faults raising_body (idle_world queued_job)) = false /\
  handled w' = [Exn ValueError [PStr "bad input"]] /\
  status (job w') = Some FAILED /\
  _status (job w') = Some STARTED /\
  executed w'
  = [SetCurrentJobId (Some "job-C"); SetStatus "job-C" STARTED] /\
  stored_status "job-C" (executed w') = Some STARTED.
Proof. vm_compute. repeat split. Qed.

Lemma elapse_disarmed dt w :
  disarmed w ->
  disarmed (elapse dt w) /\ thread_exceptions (elapse dt w) = thread_exceptions w.
Proof.
  intros Hd. unfold elapse.
  destruct (penalty w) as [p|] eqn:Hp; [|split; [intros ? ? [=]|done]].
  destruct (_timer p) as [t|] eqn:Ht.
  - specialize (Hd p t Hp Ht). unfold Timer_run.
    destruct (start_time t); rewrite ?Hd; simpl; (split; [|by rewrite app_nil_r]);
      intros p' t' [= <-] [= <-]; done.
  - split; [|done]. intros p' t' [= <-]. by rewrite Ht.
Qed.

Lemma elapse_all_disarmed dts : forall w,
  disarmed w ->
  disarmed (elapse_all dts w) /\
  thread_exceptions (elapse_all dts w) = thread_exceptions w.
Proof.
  induction dts as [|dt dts IH]; intros w Hd; [done|].
  simpl. destruct (elapse_disarmed dt w Hd) as [Hd' Hx].
  destruct (IH _ Hd') as [Hd'' Hx']. split; [done | congruence].
Qed.

Lemma elapse_all_handled dts : forall w,
  handled (elapse_all dts w) = handled w.
Proof.
  induction dts as [|dt dts IH]; intros w; [done|].
  simpl. rewrite IH. by destruct (elapse_frame dt w) as (_ & _ & _ & -> & _).
Qed.

Lemma cancel_disarms p w :
  disarmed (set_penalty (cancel_death_penalty p) w).
Proof.
  intros p' t'. simpl. intros [= <-]. unfold cancel_death_penalty.
  destruct (_timer p) as [t|] eqn:Ht; simpl; [by intros [= <-] | by rewrite Ht].
Qed.

Lemma under_death_penalty_disarms p body w :
  let w' := fst (under_death_penalty p body w) in
  disarmed w' /\
  exists p' t, penalty w' = Some p' /\ _timer p' = Some t /\
    _timeout p' = _timeout p /\ _exception p' = _exception p /\
    job_id p' = job_id p.
Proof.
  unfold under_death_penalty. simpl.
  set (w1 := set_penalty _ w).
  assert (Hp : exists q t, penalty (elapse (duration body) w1) = Some q /\
             _timer q = Some t /\ _timeout q = _timeout p /\
             _exception q = _exception p /\ job_id q = job_id p).
  { unfold elapse. simpl. destruct (Timer_run _ _) as [t' raised]. simpl.
    eexists _, _. repeat split. }
  destruct Hp as (q & t & Hq & Ht & H1 & H2 & H3). rewrite Hq. split.
  - apply cancel_disarms.
  - simpl. unfold cancel_death_penalty. rewrite Ht. simpl. eexists _, _. repeat split; done.
Qed.

Lemma perform_job_penalty cfg body w :
  exists w1,
    w1 = fst (under_death_penalty
                (WindowsSignalDeathPenalty__init__
                   (timeout_or_default (job w) cfg) JobTimeoutException (id (job w)))
                body
                (set_job (with_started_at (clock (prepare_job_execution w))
                            (job (prepare_job_execution w)))
                   (prepare_job_execution w))) /\
    penalty (fst (perform_job cfg body w)) = penalty w1 /\
    thread_exceptions (fst (perform_job cfg body w)) = thread_exceptions w1.
Proof.
  eexists. split; [reflexivity|].
  pose proof (perform_job_cases cfg body w) as Hcases.
  pose proof (try_block_cases cfg body (prepare_job_execution w)) as Htry.
  cbv zeta in Htry.
  change (timeout_or_default (job (prepare_job_execution w)) cfg)
    with (timeout_or_default (job w) cfg) in Htry.
  change (id (job (prepare_job_execution w))) with (id (job w)) in Htry.
  destruct (outcome body) as [rv|e].
  - set (j := finished_job rv _ _ _) in Htry.
    set (w1 := fst (under_death_penalty _ _ _)) in *.
    pose proof (handle_job_success_cases cfg (set_job j w1)) as Hs.
    cbv zeta in Hs. rewrite Htry in Hcases. unfold with_value in Hcases.
    destruct (faults cfg call_watch);
      [rewrite Hs in Hcases; simpl in Hcases; by rewrite Hcases|].
    destruct (queued cfg _) as [[ttl pipeline]|e];
      [|rewrite Hs in Hcases; simpl in Hcases; by rewrite Hcases].
    destruct (faults cfg call_execute);
      rewrite Hs in Hcases; simpl in Hcases; by rewrite Hcases.
  - rewrite Htry in Hcases; rewrite Hcases; done.
Qed.

(** C5. Once [cancel_death_penalty] has been called on an armed penalty, no
    passage of time makes its timer raise, whether or not the deadline
    passes; and [perform_job] leaves the penalty it used cancelled or
    fired on every path, so that no timer of it can raise afterwards.  A
    timer left armed does raise once its deadline is reached. *)
Theorem cancelled_penalty_never_fires :
  (forall w p dts,
     penalty w = Some p -> armed p ->
     thread_exceptions
       (elapse_all dts (set_penalty (cancel_death_penalty p) w))
     = thread_exceptions w /\
     handled (elapse_all dts (set_penalty (cancel_death_penalty p) w))
     = handled w) /\
  (forall cfg body w dts,
     let w' := fst (perform_job cfg body w) in
     disarmed w' /\
     (exists p t, penalty w' = Some p /\ _timer p = Some t /\ finished t = true) /\
     thread_exceptions (elapse_all dts w') = thread_exceptions w') /\
  (forall w p t started e dt,
     penalty w = Some p -> _timer p = Some t ->
     start_time t = Some started -> finished t = false ->
     function t = Raise e -> started + interval t <= clock w + dt ->
     thread_exceptions (elapse dt w) = thread_exceptions w ++ [e]).
Proof.
  split; [|split].
  3:{ intros w p t started e dt Hp Ht Hs Hf He Hlate.
      unfold elapse, Timer_run. rewrite Hp, Ht, Hs, Hf, He.
      apply Z.leb_le in Hlate. by rewrite Hlate. }
  - intros w p dts Hp _. split.
    + by destruct (elapse_all_disarmed dts _ (cancel_disarms p w)) as [_ ->].
    + by rewrite elapse_all_handled.
  - intros cfg body w dts w'. subst w'.
    destruct (perform_job_penalty cfg body w) as (w1 & Hw1 & Hpen & Hexn).
    destruct (under_death_penalty_disarms
                (WindowsSignalDeathPenalty__init__
                   (timeout_or_default (job w) cfg) JobTimeoutException (id (job w)))
                body
                (set_job (with_started_at (clock (prepare_job_execution w))
                            (job (prepare_job_execution w)))
                   (prepare_job_execution w))) as (Hd & p & t & Hp & Ht & _).
    rewrite <- Hw1 in Hd, Hp.
    assert (Hd' : disarmed (fst (perform_job cfg body w))).
    { intros p' t'. rewrite Hpen. apply Hd. }
    split; [done|]. split.
    + exists p, t. rewrite Hpen. split; [done|]. split; [done|]. by apply (Hd p t).
    + by destruct (elapse_all_disarmed dts _ Hd') as [_ ->].
Qed.

(** C6 does not hold as stated: the job identifier cannot be read from the
    exception [handle_death_penalty] raises, since two penalties that
    differ only in their job identifier raise the same exception. *)
Lemma timeout_error_omits_job_id :
  ~ exists read_job_id : exn -> string,
      forall p e, handle_death_penalty p = Raise e -> read_job_id e = job_id p.
Proof.
  intros [read H].
  pose proof (H (mkPenalty 5 JobTimeoutException "job-A" None) _ eq_refl) as HA.
  pose proof (H (mkPenalty 5 JobTimeoutException "job-B" None) _ eq_refl) as HB.
  simpl in HA, HB. rewrite HA in HB. discriminate.
Qed.

(** C6, amended.  When the timer fires, [handle_death_penalty] raises an
    exception of the configured class whose only argument is the message
    with the configured timeout; the exception does not depend on the job
    identifier.  In [perform_job] the class is [JobTimeoutException], which
    differs from every other exception class, and the timeout is the
    job's, or the queue's default. *)
Theorem timeout_error_carries_duration :
  (forall p,
     handle_death_penalty p
     = Raise (Exn (_exception p) [PStr (timeout_message (_timeout p))])) /\
  (forall timeout exception job_id job_id' timer timer',
     handle_death_penalty (mkPenalty timeout exception job_id timer)
     = handle_death_penalty (mkPenalty timeout exception job_id' timer')) /\
  (forall cfg body w,
     exists p t,
       penalty (fst (perform_job cfg body w)) = Some p /\
       _timer p = Some t /\
       _exception p = JobTimeoutException /\
       _timeout p = timeout_or_default (job w) cfg /\
       interval t = timeout_or_default (job w) cfg /\
       function t
       = Raise (Exn JobTimeoutException
                  [PStr (timeout_message (timeout_or_default (job w) cfg))])) /\
  (forall name, JobTimeoutException <> OtherException name) /\
  JobTimeoutException <> KeyError /\ JobTimeoutException <> ValueError.
Proof.
  split; [done|]. split; [done|]. split; [|done].
  intros cfg body w.
  destruct (perform_job_penalty cfg body w) as (w1 & -> & -> & _).
  unfold under_death_penalty, elapse, Timer_run. simpl.
  destruct (_ <=? _); simpl; eexists _, _; repeat split.
Qed.

(** C8 at a job with timeout 1 whose body takes 2 seconds and returns 42:
    the timer's [JobTimeoutException] is raised in the timer thread only,
    and the worker records the job as FINISHED with result 42. *)
Lemma slow_job_is_recorded_finished :
  let w' := fst (perform_job no_faults slow_body (idle_world slow_job)) in
  timeout_or_default slow_job no_faults < duration slow_body /\
  snd (perform_job no_faults slow_body (idle_world slow_job)) = true /\
  _status (job w') = Some FINISHED /\
  _result (job w') = Some (Plain (PInt 42)) /\
  handled w' = [] /\
  thread_exceptions w'
  = [Exn JobTimeoutException
       [PStr "Task exceeded maximum timeout value (1 seconds)"]].
Proof. vm_compute. repeat split. Qed.

(** C3 at a job whose result TTL is 0 and whose body returns. *)
Lemma result_ttl_branches_witness :
  let w := idle_world discard_job in
  let w' := fst (perform_job no_faults quick_body w) in
  let ttl := get_result_ttl (job w) (default_result_ttl no_faults) in
  exists (ok_msg : string) (saved : list command) (ttl_msg : level * string),
    executed w' =
      executed (prepare_job_execution w)
      ++ [Watch (id (job w)); EnqueueDependents (id (job w));
          SetCurrentJobId None; IncrementSuccessfulJobCount]
      ++ saved ++ [Cleanup (id (job w)) ttl] /\
    log w' = log w ++ [(INFO, ok_msg); ttl_msg] /\
    (ttl = 0 /\ saved = [] /\
       ttl_msg = (INFO, "Result discarded immediately.")
     \/ ttl > 0 /\ saved = [Save (job w')] /\
       ttl_msg = (INFO, "Result is kept for " +:+ pretty ttl +:+ " seconds.")
     \/ ttl < 0 /\ saved = [Save (job w')] /\
       ttl_msg = (WARNING,
                  "Result will never expire, clean up result key manually.")).
Proof.
  apply (result_ttl_branches no_faults quick_body (idle_world discard_job)).
  reflexivity.
Defined.

(** ** Control-panel state and VectorXY, continued *)

Lemma get_state_loop_readable_prefix before : forall rest acc,
  Forall readable before ->
  exists acc', get_state_loop (before ++ rest) acc = get_state_loop rest acc'.
Proof.
  induction before as [|el before IH]; intros rest acc Hr; [by exists acc|].
  inversion Hr as [|? ? Hel Hbefore]; subst. simpl.
  unfold get_state_step. destruct (el_source el) eqn:Hs; simpl.
  - by apply IH.
  - destruct (Hel Hs) as [[data ->] [id ->]]. simpl. by apply IH.
Qed.

(** X1. The first node [get_state] cannot read decides the outcome: with
    readable elements before it, a node without ['data'] makes [get_state]
    raise [KeyError('data')], and a node with data but without ['id'] makes
    it raise [KeyError('id')], whatever follows. *)
Theorem get_state_missing_key (before after : list element) (el : element) :
  Forall readable before -> el_source el = None ->
  (el_data el = None ->
   get_state (before ++ el :: after) = Raise (Exn KeyError [PStr "data"])) /\
  (is_Some (el_data el) -> el_id el = None ->
   get_state (before ++ el :: after) = Raise (Exn KeyError [PStr "id"])).
Proof.
  intros Hbefore Hs. unfold get_state.
  destruct (get_state_loop_readable_prefix before (el :: after) ∅ Hbefore)
    as [acc ->].
  simpl. unfold get_state_step. rewrite Hs. split.
  - by intros ->.
  - intros [data ->] ->. done.
Qed.

Lemma get_state_missing_key_witness :
  get_state ([Element (Some "SINE-1") None (Some (NodeData None))]
             ++ node_without_data :: two_SINE_nodes)
  = Raise (Exn KeyError [PStr "data"]).
Proof.
  apply (get_state_missing_key
           [Element (Some "SINE-1") None (Some (NodeData None))]
           two_SINE_nodes node_without_data).
  - repeat constructor; eexists; reflexivity.
  - reflexivity.
  - reflexivity.
Defined.

Lemma get_state_loop_ignores_edges elems : forall acc,
  get_state_loop (filter (fun el => el_source el = None) elems) acc
  = get_state_loop elems acc.
Proof.
  induction elems as [|el elems IH]; intros acc; [done|].
  rewrite filter_cons. destruct (decide (el_source el = None)) as [Hs|Hs].
  - simpl. destruct (get_state_step acc el); simpl; [apply IH | done].
  - simpl. unfold get_state_step. destruct (el_source el); [|done].
    simpl. apply IH.
Qed.

(** X2. Edges do not count: [get_state] gives the same mapping, or raises
    the same error, on the elements without those that have a ['source']. *)
Theorem get_state_ignores_edges (elems : list element) :
  get_state (filter (fun el => el_source el = None) elems) = get_state elems.
Proof. apply get_state_loop_ignores_edges. Qed.

Lemma split_hd_spec (sep : ascii) (s : list ascii) :
  (sep ∉ hd [] (split sep s)) /\
  exists rest, s = hd [] (split sep s) ++ rest.
Proof.
  induction s as [|c s [IHnot [rest IHrest]]]; simpl.
  - split; [apply not_elem_of_nil | by exists []].
  - destruct (Ascii.eqb_spec c sep) as [->|Hne]; simpl.
    + split; [apply not_elem_of_nil | by eexists].
    + destruct (split sep s) as [|piece pieces]; simpl in *.
      * split; [|exists s; done].
        intros [->|H]%elem_of_cons; [done | by apply elem_of_nil in H].
      * split.
        -- intros [->|H]%elem_of_cons; [done | by apply IHnot].
        -- exists rest. by rewrite <- IHrest.
Qed.

(** X3. The label of an id has no ['-'], starts the id, and is its own
    label. *)
Theorem label_of_is_dash_free_prefix (id : string) :
  ("-"%char ∉ list_ascii_of_string (label_of id)) /\
  (exists rest, id = label_of id +:+ rest) /\
  label_of (label_of id) = label_of id.
Proof.
  destruct (split_hd_spec "-" (list_ascii_of_string id)) as [Hnot [rest Hrest]].
  assert (Hl : list_ascii_of_string (label_of id)
               = hd [] (split "-" (list_ascii_of_string id))).
  { unfold label_of. apply list_ascii_of_string_of_list_ascii. }
  split; [by rewrite Hl|]. split.
  - exists (string_of_list_ascii rest).
    rewrite <- (string_of_list_ascii_of_string id) at 1.
    rewrite Hrest at 1. rewrite <- Hl.
    rewrite <- (string_of_list_ascii_of_string (label_of id +:+ _)).
    f_equal. rewrite list_ascii_of_string_app.
    by rewrite list_ascii_of_string_of_list_ascii.
  - apply label_of_whole. by rewrite Hl.
Qed.

(** X4. Item assignment and item access agree: after [v[key] = value]
    succeeds, [v[key]] is the array made of [value], and the other
    component reads as before. *)
Theorem setitem_then_getitem (self self' : gmap string pyval) (key : string)
    (value : pyval) :
  __setitem__ self key value = Ok self' ->
  __getitem__ self' key = _ndarrayify value /\
  forall key', key' <> key -> __getitem__ self' key' = __getitem__ self key'.
Proof.
  intros Hset. apply __setitem___Ok in Hset as (Hkey & v & Hv & ->).
  apply xy_key_spec in Hkey as Hk. split.
  - unfold __getitem__, getitem. rewrite Hk, lookup_insert_eq, Hv. simpl.
    by destruct Hkey as [-> | ->].
  - intros key' Hne. unfold __getitem__, getitem.
    by rewrite lookup_insert_ne.
Qed.

Lemma setitem_then_getitem_witness :
  __getitem__ (<["x" := PNdarray (np_array (PList [PInt 3]))]> ∅) "x"
  = _ndarrayify (PInt 3).
Proof.
  apply (setitem_then_getitem ∅ _ "x" (PInt 3)). reflexivity.
Defined.

(** X5. Coercion to an array is idempotent, so a value coerced twice (as
    the constructor does) is coerced once; a bool, [None], a string and a
    dict are refused with [ValueError], a bool although it is an [int] to
    [isinstance]. *)
Theorem ndarrayify_is_idempotent :
  (forall value value',
     _ndarrayify value = Ok value' -> _ndarrayify value' = Ok value') /\
  (forall value,
     (exists value', _ndarrayify value = Ok value') \/
     _ndarrayify value = Raise (Exn ValueError [value])) /\
  (forall b, _ndarrayify (PBool b) = Raise (Exn ValueError [PBool b])) /\
  _ndarrayify PNone = Raise (Exn ValueError [PNone]) /\
  (forall s, _ndarrayify (PStr s) = Raise (Exn ValueError [PStr s])) /\
  (forall d, _ndarrayify (PDict d) = Raise (Exn ValueError [PDict d])).
Proof.
  split; [|split; [|done]].
  - intros value value' H. by destruct (_ndarrayify_Ok _ _ H) as [a ->].
  - intros value. destruct value; simpl; eauto.
Qed.

Lemma bind_Ok_inv {A B} (r : result A) (k : A -> result B) (b : B) :
  (r ≫= k) = Ok b -> exists a, r = Ok a /\ k a = Ok b.
Proof. destruct r as [a|e]; [by exists a | done]. Qed.

Lemma component_Ok_acceptable (kwargs self self' : gmap string pyval)
    (key : string) (default : pyval) :
  match kwargs !! key with
  | Some value => value' ← _ndarrayify value; __setitem__ self key value'
  | None => __setitem__ self key default
  end = Ok self' ->
  acceptable kwargs key.
Proof.
  unfold acceptable. destruct (kwargs !! key) as [value|]; [|done].
  intros (value' & Hv & _)%bind_Ok_inv. eauto.
Qed.

(** X6. The constructor reads only the keywords ['x'] and ['y']; it
    succeeds exactly when each of the two that is given can be made an
    array, and otherwise raises [ValueError] with the value of ['x'] if
    that one cannot, with the value of ['y'] if only that one cannot. *)
Theorem VectorXY_init_reads_x_and_y :
  (forall kwargs kwargs',
     kwargs !! "x" = kwargs' !! "x" -> kwargs !! "y" = kwargs' !! "y" ->
     __init__ kwargs = __init__ kwargs') /\
  (forall kwargs,
     (exists self, __init__ kwargs = Ok self) <->
     acceptable kwargs "x" /\ acceptable kwargs "y") /\
  (forall kwargs x,
     kwargs !! "x" = Some x -> ~ acceptable kwargs "x" ->
     __init__ kwargs = Raise (Exn ValueError [x])) /\
  (forall kwargs y,
     acceptable kwargs "x" -> kwargs !! "y" = Some y ->
     ~ acceptable kwargs "y" ->
     __init__ kwargs = Raise (Exn ValueError [y])).
Proof.
  assert (Hrefused : forall v, ~ (exists v', _ndarrayify v = Ok v') ->
            _ndarrayify v = Raise (Exn ValueError [v])).
  { intros v Hv. destruct v; simpl in *; try done; exfalso; eauto. }
  assert (Hx : forall kwargs, acceptable kwargs "x" ->
            exists a,
              match kwargs !! "x" with
              | Some x => x' ← _ndarrayify x; __setitem__ ∅ "x" x'
              | None => __setitem__ ∅ "x" (PNdarray (np_array (PList [])))
              end = Ok (<["x" := PNdarray a]> ∅)).
  { intros kwargs. unfold acceptable. destruct (kwargs !! "x") as [x|].
    - intros [x' Hx']. destruct (_ndarrayify_Ok _ _ Hx') as [a ->].
      exists a. by rewrite Hx'.
    - intros _. by eexists. }
  split; [|split; [|split]].
  - intros kwargs kwargs' Hxx Hyy. unfold __init__. by rewrite Hxx, Hyy.
  - intros kwargs. split.
    + intros [self Hself]. unfold __init__ in Hself.
      apply bind_Ok_inv in Hself as (self1 & H1 & H2).
      split; eapply component_Ok_acceptable; eauto.
    + intros [Hax Hay]. destruct (Hx kwargs Hax) as [a Ha].
      unfold __init__. rewrite Ha. rewrite bind_Ok_l.
      unfold acceptable in Hay. destruct (kwargs !! "y") as [y|].
      * destruct Hay as [y' Hy']. destruct (_ndarrayify_Ok _ _ Hy') as [b ->].
        rewrite Hy'. by eexists.
      * by eexists.
  - intros kwargs x Hkx Hnot. unfold acceptable in Hnot. rewrite Hkx in Hnot.
    unfold __init__. rewrite Hkx. by rewrite (Hrefused x Hnot).
  - intros kwargs y Hax Hky Hnot. unfold acceptable in Hnot.
    rewrite Hky in Hnot. destruct (Hx kwargs Hax) as [a Ha].
    unfold __init__. rewrite Ha, bind_Ok_l, Hky.
    by rewrite (Hrefused y Hnot).
Qed.

(** ** fetch_inputs and the decorator, continued *)

Lemma fetch_loop_prefix (store : job_store) ids : forall inputs,
  exists fetched rest results,
    ids = fetched ++ rest /\
    Forall2 (fun id r => store id = Ok r) fetched results /\
    (rest = [] /\ fetch_loop store ids inputs = (inputs ++ results, None) \/
     exists ea after e,
       rest = ea :: after /\ store ea = Raise e /\
       fetch_loop store ids inputs = (inputs ++ results, Some e)).
Proof.
  induction ids as [|ea ids IH]; intros inputs.
  - exists [], [], []. split; [done|]. split; [constructor|].
    left. by rewrite app_nil_r.
  - simpl. destruct (store ea) as [r|e] eqn:Hea.
    + destruct (IH (inputs ++ [r]))
        as (fetched & rest & results & -> & Hf & Hcase).
      exists (ea :: fetched), rest, (r :: results).
      split; [done|]. split; [by constructor|].
      rewrite <- app_assoc in Hcase. simpl in Hcase.
      destruct Hcase as [[-> ->] | (ea' & after & e & -> & He & ->)].
      * by left.
      * right. by exists ea', after, e.
    + exists [], (ea :: ids), []. split; [done|]. split; [constructor|].
      right. exists ea, ids, e. by rewrite app_nil_r.
Qed.

(** X7. Without mocking, [fetch_inputs] never raises: it returns the
    results of the longest run of predecessors, from the first on, that
    could all be fetched, in their order, and prints a traceback exactly
    when a fetch failed; the predecessors after a failed one are not
    fetched. *)
Theorem fetch_inputs_returns_fetched_prefix
    (store : job_store) (previous_job_ids : list string) (mock : pyval) :
  is_True mock = false ->
  exists fetched rest results,
    previous_job_ids = fetched ++ rest /\
    Forall2 (fun id r => store id = Ok r) fetched results /\
    (rest = [] /\
     fetch_inputs store previous_job_ids mock = (Ok results, [])
     \/ exists ea after e,
       rest = ea :: after /\ store ea = Raise e /\
       fetch_inputs store previous_job_ids mock
       = (Ok results, [PrintTraceback e])).
Proof.
  intros Hmock.
  destruct (fetch_loop_prefix store previous_job_ids [])
    as (fetched & rest & results & Hids & Hf & Hcase).
  exists fetched, rest, results. split; [done|]. split; [done|].
  unfold fetch_inputs. rewrite Hmock.
  destruct Hcase as [[-> ->] | (ea & after & e & -> & He & ->)].
  - by left.
  - right. by exists ea, after, e.
Qed.

Lemma fetch_inputs_returns_fetched_prefix_witness :
  exists fetched rest results,
    ["a"; "b"; "c"] = fetched ++ rest /\
    Forall2 (fun id r => store_with_a id = Ok r) fetched results /\
    (rest = [] /\
     fetch_inputs store_with_a ["a"; "b"; "c"] (PInt 1) = (Ok results, [])
     \/ exists ea after e,
       rest = ea :: after /\ store_with_a ea = Raise e /\
       fetch_inputs store_with_a ["a"; "b"; "c"] (PInt 1)
       = (Ok results, [PrintTraceback e])).
Proof.
  apply (fetch_inputs_returns_fetched_prefix store_with_a ["a"; "b"; "c"]
           (PInt 1)).
  reflexivity.
Defined.

(** X8. Mocking needs the value [True] itself: with [mock=True] the store
    is not read and the input is one [VectorXY] whose [x] is
    [np.linspace(0, 10, 100)] and whose [y] is empty; with any other value
    of [mock], a truthy one included, the predecessors are fetched as with
    [mock=False]. *)
Theorem fetch_inputs_mocks_on_True_only :
  (forall store previous_job_ids,
     fetch_inputs store previous_job_ids (PBool true)
     = (Ok [VectorXY (<["y" := empty_array]>
                        (<["x" := PNdarray (np_linspace 0 10 100)]> ∅))],
        [])) /\
  (forall store previous_job_ids mock,
     mock <> PBool true ->
     fetch_inputs store previous_job_ids mock
     = fetch_inputs store previous_job_ids (PBool false)).
Proof.
  split; [done|].
  intros store ids mock Hmock. unfold fetch_inputs.
  assert (is_True mock = false) as ->; [|done].
  destruct mock as [|[]| | | | | |]; done.
Qed.

Lemma default_params_loop_cases (pmFN : gmap string (gmap string pyval)) :
  (forall param attrs, pmFN !! param = Some attrs -> is_Some (attrs !! "default")) /\
    (exists default_params, default_params_loop pmFN = Ok default_params)
  \/ (exists param attrs, pmFN !! param = Some attrs /\ attrs !! "default" = None) /\
     default_params_loop pmFN = Raise (Exn KeyError [PStr "default"]).
Proof.
  unfold default_params_loop.
  apply (map_fold_weak_ind (fun r (m : gmap string (gmap string pyval)) =>
    (forall param attrs, m !! param = Some attrs -> is_Some (attrs !! "default")) /\
      (exists default_params, r = Ok default_params)
    \/ (exists param attrs, m !! param = Some attrs /\ attrs !! "default" = None) /\
       r = Raise (Exn KeyError [PStr "default"]))).
  - left. split; [|by eexists]. intros param attrs H. by rewrite lookup_empty in H.
  - intros i x m r Hi [[Hall [dp ->]] | [(p & attrs & Hp & Hnone) ->]].
    + destruct (x !! "default") as [d|] eqn:Hd.
      * left. split.
        -- intros param attrs. destruct (decide (i = param)) as [->|Hne].
           ++ rewrite lookup_insert_eq. intros [= <-]. by eexists.
           ++ rewrite lookup_insert_ne by done. apply Hall.
        -- simpl. unfold getitem. rewrite Hd. by eexists.
      * right. split.
        -- exists i, x. by rewrite lookup_insert_eq.
        -- simpl. unfold getitem. by rewrite Hd.
    + right. split; [|done]. exists p, attrs. split; [|done].
      rewrite lookup_insert_ne; [done|]. intros ->. congruence.
Qed.

(** X9. A function the manifest does not list cannot run: [inner] raises
    [KeyError] with the function's name, and neither reads the panel, nor
    fetches an input, nor prints, nor calls the function. *)
Theorem inner_unlisted_function (env : environment) (func : node_function)
    (previous_job_ids : list string) (mock : pyval)
    (pm : gmap string (gmap string (gmap string pyval))) :
  parameter_manifest env = Some (Ok pm) ->
  pm !! __name__ func = None ->
  inner env func previous_job_ids mock
  = Some ([], Raise (Exn KeyError [PStr (__name__ func)])) /\
  forall env',
    parameter_manifest env' = parameter_manifest env ->
    inner env' func previous_job_ids mock = inner env func previous_job_ids mock.
Proof.
  intros Hread Hpm.
  assert (H : forall env', parameter_manifest env' = parameter_manifest env ->
            inner env' func previous_job_ids mock
            = Some ([], Raise (Exn KeyError [PStr (__name__ func)]))).
  { intros env' Heq. unfold inner, func_params_of, getitem.
    rewrite Heq, Hread. simpl. by rewrite Hpm. }
  split; [by apply H|]. intros env' Heq. by rewrite !H.
Qed.

Lemma inner_unlisted_function_witness :
  inner (SINE_environment empty_store) (NodeFunction "COSINE" (call SINE))
    ["a"] (PBool false)
  = Some ([], Raise (Exn KeyError [PStr "COSINE"])).
Proof.
  destruct (inner_unlisted_function (SINE_environment empty_store)
              (NodeFunction "COSINE" (call SINE)) ["a"] (PBool false)
              SINE_manifest) as [H _].
  - vm_compute. reflexivity.
  - reflexivity.
  - exact H.
Defined.

(** X10. A manifest parameter without a ['default'] stops the function even
    when the user has set that parameter: [inner] raises
    [KeyError('default')] before it reads the panel, and the function is
    not called. *)
Theorem inner_parameter_without_default (env : environment)
    (func : node_function) (previous_job_ids : list string) (mock : pyval)
    (pm : gmap string (gmap string (gmap string pyval)))
    (pmFN : gmap string (gmap string pyval)) (param : string)
    (attrs : gmap string pyval) :
  parameter_manifest env = Some (Ok pm) ->
  pm !! __name__ func = Some pmFN ->
  pmFN !! param = Some attrs -> attrs !! "default" = None ->
  inner env func previous_job_ids mock
  = Some ([], Raise (Exn KeyError [PStr "default"])).
Proof.
  intros Hread Hpm Hparam Hnone. unfold inner, func_params_of, getitem.
  rewrite Hread. simpl. rewrite Hpm. simpl.
  destruct (default_params_loop_cases pmFN) as [[Hall _] | [_ ->]]; [|done].
  destruct (Hall param attrs Hparam) as [d Hd]. congruence.
Qed.

Lemma inner_parameter_without_default_witness :
  inner (Environment manifest_file_without_default SINE_panel empty_store)
    SINE [] (PBool true)
  = Some ([], Raise (Exn KeyError [PStr "default"])).
Proof.
  apply (inner_parameter_without_default
           (Environment manifest_file_without_default SINE_panel empty_store)
           SINE [] (PBool true) manifest_without_default
           {[ "frequency" := {[ "type" := PStr "number" ]} ]} "frequency"
           {[ "type" := PStr "number" ]});
    [vm_compute; reflexivity | reflexivity..].
Defined.

(** X11. The parameters handed to the function are the user's for that
    function, completed by the defaults, and nothing else: a key is bound
    to the user's value when the user state has one, else to the manifest
    default, else not at all.  So a parameter of the user state that the
    manifest does not know is handed on as it is, and without user state
    for the function the parameters are the defaults. *)
Theorem func_params_are_user_then_defaults (env : environment) (FN : string)
    (pm : gmap string (gmap string (gmap string pyval)))
    (pmFN : gmap string (gmap string pyval))
    (user_set_parameters : gmap string (gmap string pyval)) :
  parameter_manifest env = Some (Ok pm) ->
  pm !! FN = Some pmFN ->
  (forall param attrs,
     pmFN !! param = Some attrs -> is_Some (attrs !! "default")) ->
  get_state (panel_elements env) = Ok user_set_parameters ->
  exists func_params,
    func_params_of env FN = Some (Ok func_params) /\
    forall key,
      func_params !! key =
      match user_set_parameters !! FN ≫= (fun user => user !! key) with
      | Some value => Some value
      | None => pmFN !! key ≫= (fun attrs => attrs !! "default")
      end.
Proof.
  intros Hread Hpm Hdef Hstate.
  destruct (default_params_loop_Ok pmFN Hdef) as (dp & Hloop & Hdp).
  eexists. split.
  - unfold func_params_of, getitem. rewrite Hread. simpl. rewrite Hpm. simpl.
    rewrite Hloop. simpl. rewrite Hstate. simpl. reflexivity.
  - intros key. rewrite fill_loop_lookup.
    destruct (user_set_parameters !! FN) as [user|]; simpl.
    + destruct (user !! key); [done | apply Hdp].
    + rewrite Hdp. by destruct (pmFN !! key ≫= _).
Qed.

Lemma func_params_are_user_then_defaults_witness :
  exists func_params,
    func_params_of
      (Environment manifest_file panel_with_unknown_parameter empty_store)
      "SINE" = Some (Ok func_params) /\
    func_params !! "phase" = Some (PInt 90) /\
    func_params !! "frequency" = Some (PStr "1").
Proof.
  destruct (func_params_are_user_then_defaults
              (Environment manifest_file panel_with_unknown_parameter
                 empty_store) "SINE" SINE_manifest
              {[ "frequency" := {[ "default" := PStr "1" ]};
                 "amplitude" := {[ "default" := PStr "1" ]} ]}
              {[ "SINE" := {[ "phase" := PInt 90 ]} ]})
    as (func_params & Hparams & Hlookup).
  - vm_compute. reflexivity.
  - reflexivity.
  - apply map_Forall_insert_2; [by eexists|].
    apply map_Forall_singleton. by eexists.
  - vm_compute. reflexivity.
  - exists func_params. split; [exact Hparams|]. split.
    + rewrite Hlookup. reflexivity.
    + rewrite Hlookup. reflexivity.
Defined.

(** ** js_to_json, continued *)

(** X12. A text without an equals sign is refused: [js_to_json] raises
    [IndexError], whatever else the text holds. *)
Theorem js_to_json_needs_equals (s : list ascii) :
  "="%char ∉ s -> js_to_json s = Some (Raise IndexError).
Proof. intros H. unfold js_to_json. by rewrite split_no_sep. Qed.

Lemma js_to_json_needs_equals_witness :
  js_to_json (list_ascii_of_string "{a: 1};") = Some (Raise IndexError).
Proof.
  apply (js_to_json_needs_equals (list_ascii_of_string "{a: 1};")).
  intros H. vm_compute in H.
  repeat (apply elem_of_cons in H as [H|H]; [discriminate|]).
  by apply elem_of_nil in H.
Defined.

(** X13. Only the text between the first and the second equals sign is
    read: what stands before the first (the name) and everything from a
    second equals sign on have no effect on the result. *)
Theorem js_to_json_reads_between_equals (a b c : list ascii) :
  "="%char ∉ a -> "="%char ∉ b ->
  js_to_json (a ++ "="%char :: b ++ "="%char :: c)
  = js_to_json ("="%char :: b) /\
  js_to_json (a ++ "="%char :: b) = js_to_json ("="%char :: b).
Proof.
  intros Ha Hb. unfold js_to_json.
  rewrite !(split_at_sep _ a) by done.
  rewrite (split_at_sep _ b) by done.
  change (split "=" ("="%char :: b)) with ([] :: split "=" b).
  rewrite (split_no_sep _ b) by done.
  split; [|done]. by destruct (split "=" c).
Qed.

Lemma js_to_json_reads_between_equals_witness :
  js_to_json (list_ascii_of_string "x" ++ "="%char
              :: list_ascii_of_string " {a: 1}; y " ++ "="%char
              :: list_ascii_of_string " {b: 2};")
  = js_to_json ("="%char :: list_ascii_of_string " {a: 1}; y ").
Proof.
  apply (js_to_json_reads_between_equals (list_ascii_of_string "x")
           (list_ascii_of_string " {a: 1}; y ")
           (list_ascii_of_string " {b: 2};"));
    intros H; vm_compute in H;
    repeat (apply elem_of_cons in H as [H|H]; [discriminate|]);
    by apply elem_of_nil in H.
Defined.

(** X14. Splitting on whitespace and joining with the empty string removes
    every whitespace character and nothing else, so words that blanks kept
    apart end up joined. *)
Theorem whitespace_is_removed (s : list ascii) :
  join (split_whitespace s) = filter (fun c => is_space c = false) s /\
  Forall (fun piece => piece <> [] /\ Forall (fun c => is_space c = false) piece)
    (split_whitespace s).
Proof.
  split; [apply join_split_whitespace|].
  induction s as [|c s IH]; [constructor|].
  simpl. destruct (is_space c) eqn:Hc; [done|].
  destruct s as [|c' s]; [by repeat constructor|].
  destruct (is_space c') eqn:Hc'; [constructor; [by repeat constructor | done]|].
  destruct (split_whitespace (c' :: s)) as [|piece pieces];
    [by repeat constructor|].
  inversion IH as [|? ? [Hne Hp] Hps]; subst.
  constructor; [|done]. split; [done | by constructor].
Qed.

Lemma replace_char (c : ascii) (s : list ascii) :
  replace [c] [] s = filter (fun x => Ascii.eqb c x = false) s.
Proof.
  unfold replace. induction s as [|x s IH]; [done|].
  simpl. rewrite filter_cons. destruct (Ascii.eqb c x) eqn:Hx.
  - rewrite decide_False by done. apply IH.
  - rewrite decide_True by done. by rewrite IH.
Qed.

Lemma replace_deleted (s : list ascii) :
  replace ["'"%char] [] (replace ["010"%char] [] s)
  = filter (fun c => deleted c = false) s.
Proof.
  rewrite !replace_char. induction s as [|x s IH]; [done|].
  rewrite !(filter_cons _ x). unfold deleted.
  rewrite (Ascii.eqb_sym x "010"), (Ascii.eqb_sym x "'").
  destruct (Ascii.eqb "010" x) eqn:H1.
  - rewrite !decide_False by done. apply IH.
  - rewrite (decide_True (P := false = false)) by done. rewrite filter_cons.
    destruct (Ascii.eqb "'" x) eqn:H2.
    + rewrite !decide_False by done. apply IH.
    + rewrite !decide_True by done. by rewrite IH.
Qed.

Lemma filter_filter_deleted (s : list ascii) :
  filter (fun c => deleted c = false) (filter (fun c => deleted c = false) s)
  = filter (fun c => deleted c = false) s.
Proof.
  induction s as [|x s IH]; [done|]. rewrite filter_cons.
  destruct (deleted x) eqn:Hx.
  - by rewrite decide_False.
  - rewrite decide_True by done. rewrite filter_cons, decide_True by done.
    by rewrite IH.
Qed.

Lemma split_filter (sep : ascii) (P : ascii -> Prop)
    `{forall c, Decision (P c)} (s : list ascii) :
  P sep ->
  split sep (filter P s) = map (filter P) (split sep s).
Proof.
  intros Hsep. induction s as [|c s IH]; [done|].
  rewrite filter_cons. simpl.
  destruct (Ascii.eqb_spec c sep) as [->|Hne].
  - rewrite decide_True by done. simpl. rewrite Ascii.eqb_refl. by rewrite IH.
  - destruct (decide (P c)) as [Hc|Hc].
    + simpl. destruct (Ascii.eqb_spec c sep) as [->|_]; [done|].
      rewrite IH. destruct (split sep s) as [|piece pieces]; simpl.
      * by rewrite filter_cons, decide_True.
      * by rewrite filter_cons, decide_True.
    + rewrite IH. destruct (split sep s) as [|piece pieces] eqn:Hs; simpl.
      * by destruct s; simpl in Hs; [|destruct (Ascii.eqb _ _), (split sep s)].
      * by rewrite filter_cons, decide_False.
Qed.

(** X15. Newlines and single quotes are deleted wherever they stand, before
    anything is read: [js_to_json] gives the same result, or fails in the
    same way, on the text without them.  So a value written between single
    quotes reads as if the quotes were not there. *)
Theorem js_to_json_ignores_quotes_and_newlines (s : list ascii) :
  js_to_json (filter (fun c => deleted c = false) s) = js_to_json s.
Proof.
  unfold js_to_json. rewrite split_filter by done.
  destruct (split "=" s) as [|name [|piece pieces]]; [done | done |].
  simpl map. cbv zeta.
  by rewrite !replace_deleted, filter_filter_deleted.
Qed.

Lemma starts_with_app (old s t : list ascii) :
  starts_with old s = true -> starts_with old (s ++ t) = true.
Proof.
  revert s. induction old as [|a old IH]; intros s; [done|].
  destruct s as [|c s]; [done|]. simpl.
  intros [-> H]%andb_true_iff. by rewrite IH.
Qed.

Lemma replace_from_two (p1 p2 : ascii) (new : list ascii) (c : ascii)
    (rest : list ascii) :
  replace_from [p1; p2] new 0 (c :: rest)
  = if starts_with [p1; p2] (c :: rest)
    then new ++ replace_from [p1; p2] new 1 rest
    else c :: replace_from [p1; p2] new 0 rest.
Proof. done. Qed.

(** A character outside a two-character pattern, added at the end, is left
    at the end. *)
Lemma replace_two_snoc (p1 p2 : ascii) (new : list ascii) (c : ascii)
    (s : list ascii) :
  c <> p1 -> c <> p2 ->
  replace_from [p1; p2] new 0 (s ++ [c]) = replace_from [p1; p2] new 0 s ++ [c] /\
  (s <> [] ->
   replace_from [p1; p2] new 1 (s ++ [c]) = replace_from [p1; p2] new 1 s ++ [c]).
Proof.
  intros H1 H2. induction s as [|y s [IH0 IH1]].
  - split; [|done]. simpl.
    by destruct (Ascii.eqb_spec p1 c) as [->|_].
  - split; [|intros _; exact IH0].
    change ((y :: s) ++ [c]) with (y :: (s ++ [c])).
    rewrite !replace_from_two.
    destruct (starts_with [p1; p2] (y :: s)) eqn:Hs.
    + change (y :: s ++ [c]) with ((y :: s) ++ [c]).
      rewrite (starts_with_app _ (y :: s) [c] Hs).
      rewrite <- app_assoc. f_equal. apply IH1.
      intros ->. simpl in Hs. by rewrite andb_false_r in Hs.
    + assert (starts_with [p1; p2] (y :: s ++ [c]) = false) as ->.
      { simpl in *. destruct (Ascii.eqb p1 y); [|done]. simpl in *.
        destruct s as [|z s]; simpl in *.
        - destruct (Ascii.eqb_spec p2 c) as [->|_]; done.
        - by rewrite andb_true_r in *. }
      simpl. by rewrite IH0.
Qed.

Lemma clean_semicolon (s : list ascii) :
  rstrip [";"%char]
    (replace [","; "}"]%char ["}"%char]
       (replace ["'"%char] [] (replace ["010"%char] [] (s ++ [";"%char]))))
  = rstrip [";"%char]
      (replace [","; "}"]%char ["}"%char]
         (replace ["'"%char] [] (replace ["010"%char] [] s))).
Proof.
  rewrite !replace_deleted, filter_app.
  change (filter (fun c => deleted c = false) [";"%char]) with [";"%char].
  unfold replace.
  rewrite (proj1 (replace_two_snoc "," "}" ["}"%char] ";" _ ltac:(done) ltac:(done))).
  by apply rstrip_drops.
Qed.

Lemma split_snoc (sep c : ascii) (s : list ascii) :
  c <> sep ->
  split sep (s ++ [c]) = [s ++ [c]] /\ split sep s = [s]
  \/ exists name piece,
       (split sep (s ++ [c]) = [name; piece ++ [c]] /\
        split sep s = [name; piece])
       \/ exists pieces pieces',
            split sep (s ++ [c]) = name :: piece :: pieces /\
            split sep s = name :: piece :: pieces' /\
            pieces <> [] /\ pieces' <> [].
Proof.
  intros Hc. destruct (decide (sep ∈ s)) as [Hin|Hnot].
  2:{ left. rewrite !split_no_sep; [done | done |].
      rewrite elem_of_app, list_elem_of_singleton. intros [?|?]; [done | congruence]. }
  right. apply list_elem_of_split_l in Hin as (name & r & -> & Hname).
  exists name. rewrite <- app_assoc. simpl. rewrite !split_at_sep by done.
  destruct (decide (sep ∈ r)) as [Hin|Hnot].
  - apply list_elem_of_split_l in Hin as (piece & r' & -> & Hpiece).
    exists piece. right. rewrite <- app_assoc. simpl.
    rewrite !split_at_sep by done.
    exists (split sep (r' ++ [c])), (split sep r'). repeat split.
    + by destruct (r' ++ [c]) as [|x t]; simpl;
        [|destruct (Ascii.eqb x sep), (split sep t)].
    + by destruct r' as [|x t]; simpl;
        [|destruct (Ascii.eqb x sep), (split sep t)].
  - exists r. left. rewrite !split_no_sep; [done | done |].
    rewrite elem_of_app, list_elem_of_singleton. intros [?|?]; [done | congruence].
Qed.

Lemma js_to_json_semicolon (s : list ascii) :
  js_to_json (s ++ [";"%char]) = js_to_json s.
Proof.
  unfold js_to_json.
  destruct (split_snoc "=" ";" s ltac:(done))
    as [[-> ->] | (name & piece & [[-> ->] | (ps & ps' & -> & -> & Hps & Hps')])].
  - done.
  - cbv zeta. by rewrite clean_semicolon.
  - by destruct ps, ps'.
Qed.

(** X16. Semicolons at the end of the text are optional: with any number
    of them added, [js_to_json] gives the same result or fails in the same
    way. *)
Theorem js_to_json_ignores_trailing_semicolons (s : list ascii) (n : nat) :
  js_to_json (s ++ repeat ";"%char n) = js_to_json s.
Proof.
  revert s. induction n as [|n IH]; intros s; [by rewrite app_nil_r|].
  cbn [repeat]. rewrite repeat_cons, app_assoc, js_to_json_semicolon. apply IH.
Qed.

Lemma sub_words_length (s : list ascii) : forall in_word : bool,
  exists n : nat,
    (length (sub_words in_word s) + (if in_word then 1 else 0)
     = length s + 2 * n)%nat.
Proof.
  induction s as [|c s IH]; intros in_word.
  - destruct in_word; [by exists 1%nat | by exists 0%nat].
  - simpl. destruct (is_word c), in_word.
    + destruct (IH true) as [n Hn]. exists n. simpl. lia.
    + destruct (IH true) as [n Hn]. exists n. simpl in *. lia.
    + destruct (IH false) as [n Hn]. exists (S n). simpl in *. lia.
    + destruct (IH false) as [n Hn]. exists n. simpl in *. lia.
Qed.

Lemma sub_words_adds_quotes_only (s : list ascii) : forall in_word : bool,
  filter (fun c => c <> dquote) (sub_words in_word s)
  = filter (fun c => c <> dquote) s.
Proof.
  induction s as [|c s IH]; intros in_word.
  - by destruct in_word.
  - simpl. destruct (is_word c) eqn:Hc, in_word;
      rewrite ?(filter_cons _ dquote), ?(filter_cons _ c);
      rewrite ?(decide_False (P := dquote <> dquote)) by (by intros H; apply H);
      by rewrite IH.
Qed.

(** X17. The substitution of [js_to_json] only adds double quotes, and an
    even number of them: without the double quotes its result is the text
    without its double quotes. *)
Theorem sub_words_only_adds_quotes (s : list ascii) :
  filter (fun c => c <> dquote) (sub_words false s)
  = filter (fun c => c <> dquote) s /\
  exists n : nat, length (sub_words false s) = (length s + 2 * n)%nat.
Proof.
  split; [apply sub_words_adds_quotes_only|].
  destruct (sub_words_length s false) as [n Hn]. exists n. lia.
Qed.

(** ** The mapping js_to_json returns *)

Lemma string_of_list_ascii_inj (a b : list ascii) :
  string_of_list_ascii a = string_of_list_ascii b -> a = b.
Proof.
  intros H. apply (f_equal list_ascii_of_string) in H.
  by rewrite !list_ascii_of_string_of_list_ascii in H.
Qed.

Lemma dict_set_new key value d :
  key ∉ map fst d -> dict_set key value d = d ++ [(key, value)].
Proof.
  induction d as [|[k x] d IH]; [done|]. simpl. intros Hnot.
  destruct (String.eqb_spec k key) as [->|Hne]; [exfalso; apply Hnot; left|].
  rewrite IH; [done|]. intros H. apply Hnot. by right.
Qed.

Lemma dict_set_old key value d :
  key ∈ map fst d -> map fst (dict_set key value d) = map fst d.
Proof.
  induction d as [|[k x] d IH]; [by intros ?%elem_of_nil|]. simpl.
  destruct (String.eqb_spec k key) as [->|Hne]; [done|].
  intros [Heq|Hin]%elem_of_cons; [done|]. simpl. by rewrite IH.
Qed.

Lemma dict_set_NoDup key value d :
  NoDup (map fst d) -> NoDup (map fst (dict_set key value d)).
Proof.
  intros Hd. destruct (decide (key ∈ map fst d)) as [Hin|Hnot].
  - by rewrite dict_set_old.
  - rewrite dict_set_new, map_app by done. simpl.
    apply NoDup_app. split; [done|]. split; [|apply NoDup_singleton].
    intros k Hk ->%list_elem_of_singleton. done.
Qed.

Lemma dict_set_binds key value d : (key, value) ∈ dict_set key value d.
Proof.
  induction d as [|[k x] d IH]; simpl; [left|].
  destruct (String.eqb_spec k key) as [->|Hne]; [left | by right].
Qed.

Lemma dict_set_other key value k x d :
  k <> key -> (k, x) ∈ d -> (k, x) ∈ dict_set key value d.
Proof.
  intros Hne. induction d as [|[k' x'] d IH]; [by intros ?%elem_of_nil|].
  intros [[= -> ->]|Hin]%elem_of_cons; simpl.
  - destruct (String.eqb_spec k' key) as [->|_]; [done | left].
  - destruct (String.eqb_spec k' key) as [->|_]; right; auto.
Qed.

Lemma fold_set_member_NoDup kvs : forall d,
  NoDup (map fst d) -> NoDup (map fst (fold_left set_member kvs d)).
Proof.
  induction kvs as [|kv kvs IH]; intros d Hd; [done|].
  simpl. apply IH. by apply dict_set_NoDup.
Qed.

Lemma fold_set_member_other kvs : forall d k x,
  k ∉ map (fun kv => string_of_list_ascii (fst kv)) kvs ->
  (k, x) ∈ d -> (k, x) ∈ fold_left set_member kvs d.
Proof.
  induction kvs as [|kv kvs IH]; intros d k x Hnot Hin; [done|].
  simpl. apply IH.
  - intros H. apply Hnot. by right.
  - apply dict_set_other; [|done]. intros ->. apply Hnot. left.
Qed.

Lemma fold_set_member_new kvs : forall d,
  NoDup (map (fun kv => string_of_list_ascii (fst kv)) kvs) ->
  (forall kv, kv ∈ kvs -> string_of_list_ascii (fst kv) ∉ map fst d) ->
  fold_left set_member kvs d
  = d ++ map (fun kv => (string_of_list_ascii (fst kv), snd kv)) kvs.
Proof.
  induction kvs as [|kv kvs IH]; intros d Hnd Hnew; [by rewrite app_nil_r|].
  simpl in *. apply NoDup_cons in Hnd as [Hkv Hnd].
  unfold set_member at 2. rewrite dict_set_new by (apply Hnew; left).
  rewrite IH; [by rewrite <- app_assoc | done |].
  intros kv' Hin. rewrite map_app. simpl. rewrite elem_of_app.
  intros [H|H%list_elem_of_singleton].
  - by apply (Hnew kv'); [right|].
  - apply Hkv. rewrite <- H. apply list_elem_of_fmap. by exists kv'.
Qed.

Lemma quoted_object ms :
  quoted (JsObject ms)
  = PDict (fold_left set_member
             (map (fun kv => (fst kv, quoted (snd kv))) ms) []).
Proof. done. Qed.

(** X18. A literal whose keys are all different is returned member by
    member: the dict has the keys of the literal in the order they were
    written, each bound to what its value reads as. *)
Theorem js_to_json_keeps_members_in_order
    (name : list ascii) (members : list (list ascii * js)) :
  "="%char ∉ name -> well_formed_members members ->
  NoDup (map fst members) ->
  js_to_json (statement name (JsObject members))
  = Some (Ok (PDict (read_members members))).
Proof.
  intros Hname Hwf Hnd. rewrite js_to_json_statement by done.
  rewrite quoted_object. do 3 f_equal.
  rewrite fold_set_member_new.
  - unfold read_members. simpl. by rewrite map_map.
  - rewrite map_map. simpl.
    rewrite <- (map_map fst string_of_list_ascii).
    apply NoDup_fmap_2; [|done]. intros a b. apply string_of_list_ascii_inj.
  - intros kv _. apply not_elem_of_nil.
Qed.

Lemma js_to_json_keeps_members_in_order_witness :
  js_to_json (statement (list_ascii_of_string "export const P")
                (JsObject [(list_ascii_of_string "b",
                            JsWord (list_ascii_of_string "2"));
                           (list_ascii_of_string "a",
                            JsWord (list_ascii_of_string "1"))]))
  = Some (Ok (PDict [("b", PStr "2"); ("a", PStr "1")])).
Proof.
  apply (js_to_json_keeps_members_in_order
           (list_ascii_of_string "export const P")
           [(list_ascii_of_string "b", JsWord (list_ascii_of_string "2"));
            (list_ascii_of_string "a", JsWord (list_ascii_of_string "1"))]).
  - intros H. vm_compute in H.
    repeat (apply elem_of_cons in H as [H|H]; [discriminate|]).
    by apply elem_of_nil in H.
  - repeat constructor; discriminate.
  - repeat constructor; simpl.
    + intros H. apply list_elem_of_singleton in H. discriminate.
    + apply not_elem_of_nil.
Defined.

(** X19. A key written more than once is kept once, with the value written
    last: the keys of the returned dict are all different, and every member
    after which its key is not written again is in the dict as written. *)
Theorem js_to_json_last_member_wins
    (name : list ascii) (members : list (list ascii * js)) :
  "="%char ∉ name -> well_formed_members members ->
  exists items,
    js_to_json (statement name (JsObject members)) = Some (Ok (PDict items)) /\
    NoDup (map fst items) /\
    forall before key value after,
      members = before ++ (key, value) :: after ->
      key ∉ map fst after ->
      (string_of_list_ascii key, quoted value) ∈ items.
Proof.
  intros Hname Hwf. eexists. split; [by apply js_to_json_statement|].
  split; [apply fold_set_member_NoDup, NoDup_nil_2|].
  intros before key value after -> Hlast.
  rewrite map_app, fold_left_app. simpl.
  apply fold_set_member_other; [|apply dict_set_binds].
  rewrite map_map. simpl.
  intros (kv & Hk & Hin)%list_elem_of_fmap.
  apply string_of_list_ascii_inj in Hk. apply Hlast.
  apply list_elem_of_fmap. by exists kv.
Qed.

Lemma js_to_json_last_member_wins_witness :
  exists items,
    js_to_json (statement (list_ascii_of_string "export const P")
                  (JsObject [(list_ascii_of_string "a",
                              JsWord (list_ascii_of_string "1"));
                             (list_ascii_of_string "b",
                              JsWord (list_ascii_of_string "2"));
                             (list_ascii_of_string "a",
                              JsWord (list_ascii_of_string "3"))]))
    = Some (Ok (PDict items)) /\
    NoDup (map fst items) /\
    ("a", PStr "3") ∈ items.
Proof.
  destruct (js_to_json_last_member_wins
              (list_ascii_of_string "export const P")
              [(list_ascii_of_string "a", JsWord (list_ascii_of_string "1"));
               (list_ascii_of_string "b", JsWord (list_ascii_of_string "2"));
               (list_ascii_of_string "a", JsWord (list_ascii_of_string "3"))])
    as (items & Hjs & Hnd & Hlast).
  - intros H. vm_compute in H.
    repeat (apply elem_of_cons in H as [H|H]; [discriminate|]).
    by apply elem_of_nil in H.
  - repeat constructor; discriminate.
  - exists items. split; [exact Hjs|]. split; [exact Hnd|].
    apply (Hlast [(list_ascii_of_string "a", JsWord (list_ascii_of_string "1"));
                  (list_ascii_of_string "b", JsWord (list_ascii_of_string "2"))]
             (list_ascii_of_string "a") (JsWord (list_ascii_of_string "3")) []);
      [reflexivity | apply not_elem_of_nil].
Defined.

(** ** The worker, continued *)

Lemma stored_status_app job cmds more :
  stored_status job (cmds ++ more)
  = fold_left (write_status job) more (stored_status job cmds).
Proof. unfold stored_status. apply fold_left_app. Qed.

(** Once [prepare_job_execution] has run, Redis holds STARTED for the job,
    whatever it held before, and a [WATCH] does not change that. *)
Lemma stored_status_prepared j cmds :
  stored_status (id j) (cmds ++ prepare_commands j) = Some STARTED /\
  stored_status (id j) ((cmds ++ prepare_commands j) ++ [Watch (id j)])
  = Some STARTED.
Proof.
  rewrite !stored_status_app. simpl. by rewrite String.eqb_refl.
Qed.

Lemma queued_Raise cfg j e :
  queued cfg j = Raise e -> exists c, faults cfg c = Some e.
Proof.
  unfold queued, called.
  destruct (faults cfg call_enqueue_dependents) eqn:H1; [intros [= <-]; eauto|].
  destruct (faults cfg call_set_current_job_id) eqn:H2; [intros [= <-]; eauto|].
  destruct (faults cfg call_increment_successful_job_count) eqn:H3;
    [intros [= <-]; eauto|].
  simpl. destruct (negb _); simpl.
  - destruct (faults cfg call_save) eqn:H4; [intros [= <-]; eauto|]. simpl.
    destruct (faults cfg call_cleanup) eqn:H5; [intros [= <-]; eauto|]. done.
  - destruct (faults cfg call_cleanup) eqn:H5; [intros [= <-]; eauto|]. done.
Qed.

(** The status the job object has after [cleanup]: loaded from Redis at a
    TTL of 0, as it was otherwise. *)
Lemma cleanup__status ttl sent j :
  _status (cleanup ttl sent j)
  = if ttl =? 0 then stored_status (id j) sent else _status j.
Proof. unfold cleanup. by destruct (ttl =? 0). Qed.

Lemma cleanup_frame ttl sent j :
  (id (cleanup ttl sent j) = id j /\ status (cleanup ttl sent j) = status j) /\
  (_result (cleanup ttl sent j) = _result j /\
   ended_at (cleanup ttl sent j) = ended_at j).
Proof. unfold cleanup. by destruct (ttl =? 0). Qed.

(** X20. When the job's function raises, [perform_job] returns False and
    hands the function's exception to [handle_exception], once; but the
    failure is recorded nowhere RQ looks: the assignment of line 125 binds
    the attribute [status], while [_status] stays STARTED, Redis has
    received the commands of [prepare_job_execution] and nothing else, and
    holds STARTED for the job.  The job's result and [ended_at] are
    untouched, and none of the log lines of [perform_job] is written. *)
Theorem perform_job_body_failure
    (cfg : WorkerConfig) (body : JobBody) (w : World) (e : exn) :
  outcome body = Raise e ->
  let w' := fst (perform_job cfg body w) in
  snd (perform_job cfg body w) = false /\
  handled w' = handled w ++ [e] /\
  status (job w') = Some FAILED /\
  _status (job w') = Some STARTED /\
  executed w' = executed w ++ prepare_commands (job w) /\
  stored_status (id (job w)) (executed w') = Some STARTED /\
  _result (job w') = _result (job w) /\
  ended_at (job w') = ended_at (job w) /\
  log w' = log w.
Proof.
  intros Hbody w'. subst w'.
  pose proof (perform_job_paths cfg body w) as Hpaths. cbv zeta in Hpaths.
  destruct (after_body_frame cfg body w) as (Hj & He & Hl & Hh).
  rewrite Hbody in Hpaths. rewrite Hpaths. simpl in He |- *.
  rewrite Hj, He, Hl, Hh. simpl.
  repeat split. apply (stored_status_prepared (job w)).
Qed.

Lemma perform_job_body_failure_witness :
  let w := idle_world slow_job in
  let w' := fst (perform_job no_faults raising_body w) in
  snd (perform_job no_faults raising_body w) = false /\
  handled w' = handled w ++ [Exn ValueError [PStr "bad input"]] /\
  status (job w') = Some FAILED /\
  _status (job w') = Some STARTED /\
  executed w' = executed w ++ prepare_commands (job w) /\
  stored_status (id (job w)) (executed w') = Some STARTED /\
  _result (job w') = _result (job w) /\
  ended_at (job w') = ended_at (job w) /\
  log w' = log w.
Proof.
  apply (perform_job_body_failure no_faults raising_body (idle_world slow_job)
           (Exn ValueError [PStr "bad input"])).
  reflexivity.
Defined.



(** X22. A job reported as successful has its result in [_result], and
    [_status] FINISHED unless the result is discarded at once: at a result
    TTL of 0 [job.cleanup] loads the status from Redis, where the job is
    still STARTED, and that is what [_status] holds when [perform_job]
    returns True. *)
Theorem perform_job_success_status
    (cfg : WorkerConfig) (body : JobBody) (w : World) :
  snd (perform_job cfg body w) = true ->
  let w' := fst (perform_job cfg body w) in
  let ttl := get_result_ttl (job w) (default_result_ttl cfg) in
  (exists rv, outcome body = Ok rv /\ _result (job w') = Some rv) /\
  _status (job w') = (if ttl =? 0 then Some STARTED else Some FINISHED) /\
  status (job w') = status (job w) /\
  handled w' = handled w.
Proof.
  intros Htrue w' ttl. subst w'.
  pose proof (perform_job_paths cfg body w) as Hpaths. cbv zeta in Hpaths.
  destruct (after_body_frame cfg body w) as (Hj & He & Hl & Hh).
  destruct (stored_status_prepared (job w) (executed w)) as [Hst Hst'].
  unfold prepare_commands in *.
  set (w1 := after_body cfg body w) in *.
  destruct (outcome body) as [rv|e];
    [|rewrite Hpaths in Htrue; discriminate].
  set (j := finished_job rv _ _ _) in Hpaths.
  assert (Hid : id j = id (job w)) by (subst j; by rewrite Hj).
  assert (Hid1 : id (job w1) = id (job w)) by (by rewrite Hj).
  simpl in He.
  destruct (faults cfg call_watch);
    [rewrite Hpaths in Htrue; discriminate|].
  destruct (queued cfg j) as [[ttl' pipeline]|e] eqn:Hq;
    [|rewrite Hpaths in Htrue; discriminate].
  destruct (faults cfg call_execute);
    [rewrite Hpaths in Htrue; discriminate|].
  apply queued_Ok in Hq as [Httl _].
  assert (ttl' = ttl) as -> by (subst j ttl; by rewrite Httl, Hj).
  rewrite Hpaths.
  assert (Hlog : forall l m w2, job (log_message l m w2) = job w2
                                /\ handled (log_message l m w2) = handled w2)
    by done.
  simpl. destruct (ttl_message ttl) as [l m]. simpl.
  rewrite (proj2 (proj1 (cleanup_frame _ _ _))),
    (proj1 (proj2 (cleanup_frame _ _ _))).
  rewrite cleanup__status. simpl. rewrite ?He, ?Hid, ?Hid1, Hst', ?Hj, Hh.
  repeat split; eauto.
Qed.

Lemma perform_job_success_status_witness :
  let w := idle_world discard_job in
  let w' := fst (perform_job no_faults quick_body w) in
  let ttl := get_result_ttl (job w) (default_result_ttl no_faults) in
  (exists rv, outcome quick_body = Ok rv /\ _result (job w') = Some rv) /\
  _status (job w') = (if ttl =? 0 then Some STARTED else Some FINISHED) /\
  status (job w') = status (job w) /\
  handled w' = handled w.
Proof.
  apply (perform_job_success_status no_faults quick_body
           (idle_world discard_job)).
  reflexivity.
Defined.

(** X23. The timeout acts in the timer thread only.  With no timer
    waiting when the job is taken up, the exceptions raised in timer
    threads grow by the timeout error exactly when the function runs at
    least as long as the timeout (the timer is started before the function
    is called and cancelled after it has returned), and by nothing
    otherwise; what [handle_exception] receives is the function's own
    exception or that of a failing library call; and a function that
    returns is reported as successful whenever no library call fails,
    however long it ran. *)
Theorem timeout_acts_in_timer_thread_only
    (cfg : WorkerConfig) (body : JobBody) (w : World) :
  let w' := fst (perform_job cfg body w) in
  let timeout := timeout_or_default (job w) cfg in
  (disarmed w ->
   thread_exceptions w'
   = thread_exceptions w
     ++ (if timeout <=? duration body then [timeout_exn timeout] else [])) /\
  (forall e, e ∈ handled w' ->
     e ∈ handled w \/ outcome body = Raise e \/ exists c, faults cfg c = Some e) /\
  (snd (perform_job cfg body w) = true -> exists rv, outcome body = Ok rv) /\
  (forall rv, outcome body = Ok rv -> (forall c, faults cfg c = None) ->
     snd (perform_job cfg body w) = true).
Proof.
  cbv zeta. split; [|split; [|split]].
  - intros _.
    destruct (perform_job_penalty cfg body w) as (w1 & -> & _ & ->).
    unfold under_death_penalty, elapse, Timer_run. simpl.
    replace (clock w + timeout_or_default (job w) cfg <=? clock w + duration body)
      with (timeout_or_default (job w) cfg <=? duration body)
      by (destruct (Z.leb_spec (timeout_or_default (job w) cfg) (duration body));
          symmetry; [apply Z.leb_le | apply Z.leb_gt]; lia).
    destruct (_ <=? _); simpl; [done | by rewrite app_nil_r].
  - intros e.
    pose proof (perform_job_paths cfg body w) as Hpaths. cbv zeta in Hpaths.
    destruct (after_body_frame cfg body w) as (Hj & He & Hl & Hh).
    set (w1 := after_body cfg body w) in *.
    assert (Hlast : forall e', e ∈ handled w ++ [e'] ->
              e ∈ handled w \/ e = e').
    { intros e' [Hin|Hin]%elem_of_app; [by left|].
      apply list_elem_of_singleton in Hin. by right. }
    destruct (outcome body) as [rv|e'].
    2:{ rewrite Hpaths. simpl. rewrite Hh.
        intros [?| ->]%Hlast; [by left | right; by left]. }
    set (j := finished_job rv _ _ _) in Hpaths.
    destruct (faults cfg call_watch) as [e'|] eqn:Hwatch.
    { rewrite Hpaths. simpl. rewrite Hh.
      intros [?| ->]%Hlast; [by left | right; right; eauto]. }
    destruct (queued cfg j) as [[ttl pipeline]|e'] eqn:Hq.
    2:{ rewrite Hpaths. simpl. rewrite Hh.
        intros [?| ->]%Hlast; [by left | right; right].
        by apply (queued_Raise cfg j). }
    destruct (faults cfg call_execute) as [e'|] eqn:Hexec.
    { rewrite Hpaths. simpl. rewrite Hh.
      intros [?| ->]%Hlast; [by left | right; right; eauto]. }
    rewrite Hpaths. simpl. rewrite Hh. by left.
  - pose proof (perform_job_paths cfg body w) as Hpaths. cbv zeta in Hpaths.
    destruct (outcome body) as [rv|e]; [eauto|].
    rewrite Hpaths. discriminate.
  - intros rv Hbody Hnone.
    pose proof (perform_job_paths cfg body w) as Hpaths. cbv zeta in Hpaths.
    rewrite Hbody in Hpaths. rewrite !Hnone in Hpaths.
    set (j := finished_job rv _ _ _) in Hpaths.
    destruct (queued_no_fault cfg j Hnone) as (ttl & pipeline & Hq).
    rewrite Hq in Hpaths. by rewrite Hpaths.
Qed.

Lemma timeout_acts_in_timer_thread_only_witness :
  let w' := fst (perform_job no_faults quick_body (idle_world slow_job)) in
  timeout_or_default slow_job no_faults = duration quick_body /\
  thread_exceptions w' = [timeout_exn 1] /\
  snd (perform_job no_faults quick_body (idle_world slow_job)) = true.
Proof.
  destruct (timeout_acts_in_timer_thread_only no_faults quick_body
              (idle_world slow_job)) as (Hthread & _ & _ & Hreturn).
  split; [reflexivity|]. split.
  - apply Hthread. intros p t. discriminate.
  - apply (Hreturn (Plain (PInt 42))); reflexivity.
Defined.

(** What a [perform_job] that returns False leaves behind. *)
Lemma perform_job_False_summary cfg body w :
  snd (perform_job cfg body w) = false ->
  let w' := fst (perform_job cfg body w) in
  (_status (job w') = Some STARTED \/ _status (job w') = Some FINISHED) /\
  status (job w') = Some FAILED /\
  (exists e, handled w' = handled w ++ [e]) /\
  stored_status (id (job w)) (executed w') = Some STARTED.
Proof.
  intros Hfalse w'. subst w'.
  pose proof (perform_job_paths cfg body w) as Hpaths. cbv zeta in Hpaths.
  destruct (after_body_frame cfg body w) as (Hj & He & Hl & Hh).
  destruct (stored_status_prepared (job w) (executed w)) as [Hst Hst'].
  unfold prepare_commands in *.
  set (w1 := after_body cfg body w) in *. simpl in He.
  destruct (outcome body) as [rv|e].
  2:{ rewrite Hpaths. simpl. rewrite Hj, He, Hh. simpl.
      repeat split; eauto. }
  set (j := finished_job rv _ _ _) in Hpaths.
  assert (Hid : id j = id (job w)) by (subst j; by rewrite Hj).
  assert (Hid1 : id (job w1) = id (job w)) by (by rewrite Hj).
  destruct (faults cfg call_watch) as [e|].
  { rewrite Hpaths. simpl. rewrite He, Hh. repeat split; eauto. }
  destruct (queued cfg j) as [[ttl pipeline]|e].
  2:{ rewrite Hpaths. simpl. rewrite He, Hh, ?Hid, ?Hid1. repeat split; eauto. }
  destruct (faults cfg call_execute) as [e|].
  2:{ rewrite Hpaths in Hfalse. discriminate. }
  rewrite Hpaths. simpl.
  rewrite cleanup__status. simpl. rewrite He, Hh, ?Hid, ?Hid1, Hst'.
  repeat split; eauto. by destruct (ttl =? 0); [left | right].
Qed.

(** What a [perform_job] that returns True leaves behind. *)
Lemma perform_job_True_summary cfg body w :
  snd (perform_job cfg body w) = true ->
  let w' := fst (perform_job cfg body w) in
  let ttl := get_result_ttl (job w) (default_result_ttl cfg) in
  _status (job w') = (if ttl =? 0 then Some STARTED else Some FINISHED) /\
  status (job w') = status (job w) /\
  handled w' = handled w /\
  stored_status (id (job w)) (executed w')
  = (if ttl =? 0 then None else Some FINISHED).
Proof.
  intros Htrue w' ttl. subst w'.
  pose proof (perform_job_paths cfg body w) as Hpaths. cbv zeta in Hpaths.
  destruct (after_body_frame cfg body w) as (Hj & He & Hl & Hh).
  destruct (stored_status_prepared (job w) (executed w)) as [Hst Hst'].
  unfold prepare_commands in *.
  set (w1 := after_body cfg body w) in *.
  destruct (outcome body) as [rv|e];
    [|rewrite Hpaths in Htrue; discriminate].
  set (j := finished_job rv _ _ _) in Hpaths.
  assert (Hid : id j = id (job w)) by (subst j; by rewrite Hj).
  assert (Hid1 : id (job w1) = id (job w)) by (by rewrite Hj).
  simpl in He.
  destruct (faults cfg call_watch);
    [rewrite Hpaths in Htrue; discriminate|].
  destruct (queued cfg j) as [[ttl' pipeline]|e] eqn:Hq;
    [|rewrite Hpaths in Htrue; discriminate].
  destruct (faults cfg call_execute);
    [rewrite Hpaths in Htrue; discriminate|].
  apply queued_Ok in Hq as [Httl ->].
  assert (ttl' = ttl) as -> by (subst j ttl; by rewrite Httl, Hj).
  rewrite Hpaths.
  simpl. destruct (ttl_message ttl) as [l m]. simpl.
  rewrite (proj2 (proj1 (cleanup_frame _ _ _))).
  rewrite cleanup__status. simpl. rewrite ?He, ?Hid, ?Hid1, Hst', ?Hj, Hh.
  split; [done|]. split; [done|]. split; [done|].
  rewrite stored_status_app, Hst'. unfold saved_commands. simpl.
  destruct (ttl =? 0) eqn:Httl0; simpl.
  - by rewrite String.eqb_refl, Httl0.
  - by rewrite Hid1, String.eqb_refl, Httl0.
Qed.

(** X24. [execute_job] performs the job in the worker's own process, with
    no work horse spawned: whatever [_is_horse] was, it is False
    afterwards.  No path marks the job as failed where RQ looks: [_status]
    is STARTED or FINISHED afterwards, never FAILED, and Redis does not
    hold FAILED for the job.  A failure shows in the call of
    [handle_exception], which happens at most once, and in the attribute
    [status], bound to FAILED exactly then. *)
Theorem execute_job_leaves_no_failed_status
    (cfg : WorkerConfig) (body : JobBody) (self : WorkHorse.Horse) :
  let self' := WorkHorse.execute_job cfg body self in
  let w := WorkHorse.world self in
  let w' := WorkHorse.world self' in
  WorkHorse._is_horse self' = false /\
  (_status (job w') = Some STARTED \/ _status (job w') = Some FINISHED) /\
  stored_status (id (job w)) (executed w') <> Some FAILED /\
  (handled w' = handled w /\ status (job w') = status (job w)
   \/ (exists e, handled w' = handled w ++ [e]) /\
      status (job w') = Some FAILED).
Proof.
  cbv zeta. unfold WorkHorse.execute_job, WorkHorse.main_work_horse. simpl.
  set (w := WorkHorse.world self).
  pose proof (perform_job_True_summary cfg body w) as Htrue.
  pose proof (perform_job_False_summary cfg body w) as Hfalse.
  cbv zeta in Htrue, Hfalse.
  destruct (perform_job cfg body w) as [w' [|]]; simpl in *.
  - destruct (Htrue eq_refl) as (Hs & Hattr & Hh & Hredis).
    rewrite Hs, Hredis. split; [done|]. split; [|split; [|by left]].
    + destruct (_ =? 0); [by left | by right].
    + by destruct (_ =? 0).
  - destruct (Hfalse eq_refl) as (Hs & Hattr & Hh & Hredis).
    split; [done|]. split; [done|]. split; [by rewrite Hredis | by right].
Qed.

(** X25. The keyword arguments [WindowsWorker.__init__] hands on always
    hold a [default_worker_ttl] that is not None: the caller's when one was
    given, 2 otherwise; every other keyword is passed on as it came, and
    applying the defaulting twice changes nothing more. *)
Theorem WindowsWorker_forces_a_worker_ttl (kwargs : gmap string pyval) :
  let kwargs' := WorkHorse.WindowsWorker__init__ kwargs in
  (exists ttl, kwargs' !! "default_worker_ttl" = Some ttl /\ ttl <> PNone) /\
  (forall ttl, kwargs !! "default_worker_ttl" = Some ttl -> ttl <> PNone ->
     kwargs' = kwargs) /\
  (kwargs !! "default_worker_ttl" = None
   \/ kwargs !! "default_worker_ttl" = Some PNone ->
     kwargs' !! "default_worker_ttl" = Some (PInt 2)) /\
  (forall key, key <> "default_worker_ttl" -> kwargs' !! key = kwargs !! key) /\
  WorkHorse.WindowsWorker__init__ kwargs' = kwargs'.
Proof.
  cbv zeta. unfold WorkHorse.WindowsWorker__init__.
  destruct (kwargs !! "default_worker_ttl") as [ttl|] eqn:Hk.
  - assert (ttl = PNone \/ ttl <> PNone) as [->|Hne]
      by (destruct ttl; (by left) || (by right)).
    + rewrite lookup_insert_eq. split; [by eauto|].
      split; [by intros ? [= <-] ?|]. split; [done|].
      split; [|done]. intros key Hkey. by rewrite lookup_insert_ne.
    + assert (match ttl with
              | PNone => <["default_worker_ttl" := PInt 2]> kwargs
              | _ => kwargs
              end = kwargs) as -> by (by destruct ttl).
      rewrite Hk. split; [by eauto|]. split; [done|].
      split; [by intros [[=]|[= ->]]|]. split; [done|]. by destruct ttl.
  - rewrite lookup_insert_eq. split; [by eauto|]. split; [done|].
    split; [done|]. split; [|done].
    intros key Hkey. by rewrite lookup_insert_ne.
Qed.

Lemma timeout_message_inj (t t' : Z) :
  timeout_message t = timeout_message t' -> t = t'.
Proof.
  unfold timeout_message. intros H.
  apply (f_equal list_ascii_of_string) in H.
  rewrite !list_ascii_of_string_app in H.
  apply app_inv_head, app_inv_tail in H.
  apply (f_equal string_of_list_ascii) in H.
  rewrite !string_of_list_ascii_of_string in H.
  by apply (inj pretty) in H.
Qed.

(** X26. The timeout error tells its timeout and its class apart from any
    other: two death penalties that raise the same error have the same
    timeout and the same exception class. *)
Theorem timeout_error_determines_timeout (p p' : WindowsSignalDeathPenalty) :
  handle_death_penalty p = handle_death_penalty p' ->
  _timeout p = _timeout p' /\ _exception p = _exception p'.
Proof.
  intros H. split.
  - apply timeout_message_inj.
    by apply (f_equal (fun r : result unit =>
                         match r with
                         | Raise (Exn _ [PStr message]) => message
                         | _ => EmptyString
                         end)) in H.
  - by apply (f_equal (fun r : result unit =>
                         match r with
                         | Raise (Exn class _) => class
                         | _ => KeyError
                         end)) in H.
Qed.

Lemma timeout_error_determines_timeout_witness :
  _timeout (mkPenalty 5 JobTimeoutException "job-A" None)
  = _timeout (mkPenalty 5 JobTimeoutException "job-B" None) /\
  _exception (mkPenalty 5 JobTimeoutException "job-A" None)
  = _exception (mkPenalty 5 JobTimeoutException "job-B" None).
Proof.
  apply (timeout_error_determines_timeout
           (mkPenalty 5 JobTimeoutException "job-A" None)
           (mkPenalty 5 JobTimeoutException "job-B" None)).
  reflexivity.
Defined.
